(** * python-mle: composition graph, log-likelihood assembler, compilation
      cache and fit pipeline of [mle/__init__.py]

    The development follows the source file top to bottom.  Part I embeds
    the program; Part II states and proves its properties.

    Modelling conventions.
    - Numeric array entries are exact reals extended with the IEEE special
      values [+inf], [-inf] and [nan].  Rounding, overflow, underflow and
      signed zeros of machine floats are outside the model: a value
      stated below is the exact value of the expression the code
      evaluates, and no property gives the floating-point value of a
      density on data.
    - A Theano expression is a term of [texpr]; [eval] gives it the
      elementwise meaning with Theano's scalar/vector broadcasting.
    - [theano.function] refuses duplicate, unused and missing inputs when
      it compiles, and the compiled function refuses arguments of the
      wrong number or number of dimensions.
    - Python objects are records that carry their object identity
      ([v_id], [p_id], [did], [hid]); [is] and list membership compare
      identities only.
    - Methods that allocate objects, log or touch the memo cache run in the
      monad [M] over a [world]; a raised exception is a [Raise] result. *)

From Stdlib Require Import Reals Lra Lia ZArith QArith String List.
From stdpp Require Import gmap strings list.

Set Warnings "-clear-no-such-hyp,-register-all".

(* ================================================================== *)
(** * Part I.  The program                                             *)
(* ================================================================== *)

(** ** Array entries: reals with the IEEE special values *)

Inductive xreal : Type :=
  | Fin (r : R)
  | PInf
  | NInf
  | NaN.

Inductive sign : Type := Neg | Zero | Pos.

Definition Rsign (r : R) : sign :=
  match total_order_T r 0 with
  | inleft (left _) => Neg
  | inleft (right _) => Zero
  | inright _ => Pos
  end.

Definition sign_opp (s : sign) : sign :=
  match s with Neg => Pos | Zero => Zero | Pos => Neg end.

(** [inf * s]: an infinity of sign [s]; [inf * 0] is [nan]. *)
Definition signed_inf (s : sign) : xreal :=
  match s with Pos => PInf | Neg => NInf | Zero => NaN end.

Definition xneg (a : xreal) : xreal :=
  match a with
  | Fin x => Fin (- x)
  | PInf => NInf
  | NInf => PInf
  | NaN => NaN
  end.

Definition xadd (a b : xreal) : xreal :=
  match a, b with
  | NaN, _ | _, NaN => NaN
  | Fin x, Fin y => Fin (x + y)
  | PInf, NInf | NInf, PInf => NaN
  | PInf, _ | _, PInf => PInf
  | NInf, _ | _, NInf => NInf
  end.

Definition xsub (a b : xreal) : xreal := xadd a (xneg b).

Definition xmul (a b : xreal) : xreal :=
  match a, b with
  | NaN, _ | _, NaN => NaN
  | Fin x, Fin y => Fin (x * y)
  | Fin x, PInf | PInf, Fin x => signed_inf (Rsign x)
  | Fin x, NInf | NInf, Fin x => signed_inf (sign_opp (Rsign x))
  | PInf, PInf | NInf, NInf => PInf
  | PInf, NInf | NInf, PInf => NInf
  end.

(** Division.  There is one zero: the sign of a float zero, which decides
    the sign of [x / 0] in IEEE arithmetic, is not modelled, and a finite
    quotient never overflows. *)
Definition xdiv (a b : xreal) : xreal :=
  match a, b with
  | NaN, _ | _, NaN => NaN
  | Fin x, Fin y =>
      match Rsign y with
      | Zero => signed_inf (Rsign x)
      | _ => Fin (x / y)
      end
  | Fin _, _ => Fin 0
  | PInf, Fin y => match Rsign y with Neg => NInf | _ => PInf end
  | NInf, Fin y => match Rsign y with Neg => PInf | _ => NInf end
  | _, _ => NaN
  end.

(** [a ** n] for a literal natural exponent, by repeated multiplication;
    exact, so a power of a nonzero real is never zero and never infinite. *)
Fixpoint xpow (a : xreal) (n : nat) : xreal :=
  match n with
  | O => Fin 1
  | S O => a
  | S m => xmul a (xpow a m)
  end.

Definition xsqrt (a : xreal) : xreal :=
  match a with
  | Fin x => match Rsign x with Neg => NaN | _ => Fin (sqrt x) end
  | PInf => PInf
  | _ => NaN
  end.

Definition xlog (a : xreal) : xreal :=
  match a with
  | Fin x =>
      match Rsign x with
      | Pos => Fin (ln x)
      | Zero => NInf
      | Neg => NaN
      end
  | PInf => PInf
  | _ => NaN
  end.

(** The exact exponential: positive on every real, where the float one
    underflows to zero and overflows to [+inf]. *)
Definition xexp (a : xreal) : xreal :=
  match a with
  | Fin x => Fin (exp x)
  | PInf => PInf
  | NInf => Fin 0
  | NaN => NaN
  end.

(** Strict order; every comparison with [nan] is false. *)
Definition xltb (a b : xreal) : bool :=
  match a, b with
  | NaN, _ | _, NaN => false
  | Fin x, Fin y => if Rlt_dec x y then true else false
  | NInf, NInf | PInf, _ | _, NInf => false
  | _, _ => true
  end.

(** A comparison yields a 0/1-valued entry. *)
Definition of_bool (b : bool) : xreal := if b then Fin 1 else Fin 0.
Definition xlt (a b : xreal) : xreal := of_bool (xltb a b).
Definition xgt (a b : xreal) : xreal := of_bool (xltb b a).

(** Truth value of an entry used as a condition: anything but zero. *)
Definition truthy (c : xreal) : bool :=
  match c with
  | Fin x => match Rsign x with Zero => false | _ => true end
  | _ => true
  end.

(** ** Tensors: 0-d scalars and 1-d vectors, with broadcasting *)

Inductive tensor (A : Type) : Type :=
  | Scalar (a : A)
  | Vector (l : list A).
Arguments Scalar {A} a.
Arguments Vector {A} l.

Definition tmap {A B} (f : A -> B) (u : tensor A) : tensor B :=
  match u with
  | Scalar a => Scalar (f a)
  | Vector l => Vector (map f l)
  end.

(** Elementwise binary operation.  A scalar is broadcast against a vector;
    two vectors must have the same length, otherwise the operation fails. *)
Definition tmap2 {A B C} (f : A -> B -> C) (u : tensor A) (v : tensor B)
  : option (tensor C) :=
  match u, v with
  | Scalar a, Scalar b => Some (Scalar (f a b))
  | Scalar a, Vector l => Some (Vector (map (f a) l))
  | Vector l, Scalar b => Some (Vector (map (fun x => f x b) l))
  | Vector l1, Vector l2 =>
      if Nat.eqb (length l1) (length l2)
      then Some (Vector (zip_with f l1 l2))
      else None
  end.

Definition select (c : xreal) (ab : xreal * xreal) : xreal :=
  if truthy c then fst ab else snd ab.

(** [T.switch(cond, ift, iff)], elementwise over the broadcast operands. *)
Definition tswitch (c a b : tensor xreal) : option (tensor xreal) :=
  match tmap2 pair a b with
  | Some ab => tmap2 select c ab
  | None => None
  end.

(** [T.sum]: the sum of all entries, a 0-d result. *)
Definition tsum (u : tensor xreal) : tensor xreal :=
  match u with
  | Scalar a => Scalar a
  | Vector l => Scalar (fold_left xadd l (Fin 0))
  end.

Abbreviation tval := (tensor xreal).

(** ** Exceptions *)

(** [UnusedInputError] and [MissingInputError] are the two errors of
    [theano.function]; [EngineError] stands for whatever else an external
    collaborator ([T.grad], the minimizer) raises. *)
Inductive exn : Type :=
  | AttributeError (attr : string)
  | ValueError (msg : string)
  | UnusedInputError
  | MissingInputError
  | EngineError.

Inductive result (A : Type) : Type :=
  | Ok (a : A)
  | Raise (e : exn).
Arguments Ok {A} a.
Arguments Raise {A} e.

(** ** Symbolic expressions *)

(** A symbolic input created by [T.vector(name)] ([hdim = 1]) or
    [T.scalar(name)] ([hdim = 0]); [hid] is its object identity. *)
Record handle : Type := mkHandle {
  hid : nat;
  hname : string;
  hdim : nat
}.

Inductive texpr : Type :=
  | T_var (h : handle)
  | T_const (c : xreal)
  | T_add (a b : texpr)
  | T_sub (a b : texpr)
  | T_mul (a b : texpr)
  | T_div (a b : texpr)
  | T_neg (a : texpr)
  | T_pow (a : texpr) (n : nat)
  | T_log (a : texpr)
  | T_exp (a : texpr)
  | T_sqrt (a : texpr)
  | T_gt (a b : texpr)
  | T_lt (a b : texpr)
  | T_switch (c a b : texpr)
  | T_sum (a : texpr).

(** An environment gives values to input identities. *)
Definition env : Type := nat -> option tval.

Definition lift1 (f : tval -> tval) (x : option tval) : option tval :=
  match x with Some u => Some (f u) | None => None end.

Definition lift2 (f : tval -> tval -> option tval) (x y : option tval)
  : option tval :=
  match x, y with Some u, Some v => f u v | _, _ => None end.

Fixpoint eval (rho : env) (e : texpr) : option tval :=
  match e with
  | T_var h => rho (hid h)
  | T_const c => Some (Scalar c)
  | T_add a b => lift2 (tmap2 xadd) (eval rho a) (eval rho b)
  | T_sub a b => lift2 (tmap2 xsub) (eval rho a) (eval rho b)
  | T_mul a b => lift2 (tmap2 xmul) (eval rho a) (eval rho b)
  | T_div a b => lift2 (tmap2 xdiv) (eval rho a) (eval rho b)
  | T_neg a => lift1 (tmap xneg) (eval rho a)
  | T_pow a n => lift1 (tmap (fun x => xpow x n)) (eval rho a)
  | T_log a => lift1 (tmap xlog) (eval rho a)
  | T_exp a => lift1 (tmap xexp) (eval rho a)
  | T_sqrt a => lift1 (tmap xsqrt) (eval rho a)
  | T_gt a b => lift2 (tmap2 xgt) (eval rho a) (eval rho b)
  | T_lt a b => lift2 (tmap2 xlt) (eval rho a) (eval rho b)
  | T_switch c a b =>
      match eval rho c, eval rho a, eval rho b with
      | Some vc, Some va, Some vb => tswitch vc va vb
      | _, _, _ => None
      end
  | T_sum a => lift1 tsum (eval rho a)
  end.

(** The symbolic inputs an expression mentions. *)
Fixpoint inputs_of (e : texpr) : list handle :=
  match e with
  | T_var h => [h]
  | T_const _ => []
  | T_add a b | T_sub a b | T_mul a b | T_div a b | T_gt a b | T_lt a b =>
      inputs_of a ++ inputs_of b
  | T_neg a | T_pow a _ | T_log a | T_exp a | T_sqrt a | T_sum a =>
      inputs_of a
  | T_switch c a b => inputs_of c ++ inputs_of a ++ inputs_of b
  end.

(** ** [theano.function] *)

(** Positional binding of argument values to the inputs.  It is used only
    under [accepts], which has checked the number of arguments and the
    number of dimensions of each. *)
Fixpoint bind_inputs (inputs : list handle) (args : list tval) : env :=
  match inputs, args with
  | h :: inputs', a :: args' =>
      fun i => if Nat.eqb i (hid h) then Some a else bind_inputs inputs' args' i
  | _, _ => fun _ => None
  end.

(** A value fits an input made by [T.scalar] when it is 0-d and an input
    made by [T.vector] when it is 1-d. *)
Definition fits (h : handle) (a : tval) : bool :=
  match a with
  | Scalar _ => Nat.eqb (hdim h) 0
  | Vector _ => Nat.eqb (hdim h) 1
  end.

(** The argument check of a compiled function: one value per input, each of
    the input's number of dimensions. *)
Fixpoint accepts (inputs : list handle) (args : list tval) : bool :=
  match inputs, args with
  | [], [] => true
  | h :: inputs', a :: args' => fits h a && accepts inputs' args'
  | _, _ => false
  end.

(** A compiled function is called with positional arguments; [None] is a
    call that raises (arguments refused, or vectors of different lengths
    met in an elementwise operation). *)
Definition callable : Type := list tval -> option tval.
Definition callable_list : Type := list tval -> option (list tval).

(** The checks [theano.function(inputs, outputs)] makes before it compiles,
    in its order: no input is listed twice and every input is used by some
    output (otherwise [UnusedInputError], the default
    [on_unused_input='raise']), and every input the outputs use is listed
    (otherwise [MissingInputError]).  Inputs are compared by identity. *)
Definition check_inputs (inputs : list handle) (outputs : list texpr)
  : result unit :=
  let listed := map hid inputs in
  let used := map hid (flat_map inputs_of outputs) in
  if negb (bool_decide (NoDup listed)) then Raise UnusedInputError
  else if negb (bool_decide (listed ⊆ used)) then Raise UnusedInputError
  else if negb (bool_decide (used ⊆ listed)) then Raise MissingInputError
  else Ok tt.

(** [theano.function(inputs, output)]: the callable checks its arguments,
    binds them to [inputs] in order and evaluates [output]. *)
Definition function (inputs : list handle) (output : texpr)
  : result callable :=
  match check_inputs inputs [output] with
  | Raise e => Raise e
  | Ok _ =>
      Ok (fun args =>
            if accepts inputs args
            then eval (bind_inputs inputs args) output
            else None)
  end.

(** [theano.function(inputs, outputs)] for a list of outputs. *)
Definition function_list (inputs : list handle) (outputs : list texpr)
  : result callable_list :=
  match check_inputs inputs outputs with
  | Raise e => Raise e
  | Ok _ =>
      Ok (fun args =>
            if accepts inputs args
            then mapM (eval (bind_inputs inputs args)) outputs
            else None)
  end.

(** ** [alltrue] and [bound] *)

(** One turn of the loop of [alltrue]: [ret = ret * (1 * c)]. *)
Definition alltrue_step (ret c : texpr) : texpr :=
  T_mul ret (T_mul (T_const (Fin 1)) c).

(** [ret = 1; for c in vals: ret = ret * (1 * c)] *)
Definition alltrue (vals : list texpr) : texpr :=
  fold_left alltrue_step vals (T_const (Fin 1)).

(** [T.switch(alltrue(conditions), logp, -inf)] *)
Definition bound (logp : texpr) (conditions : list texpr) : texpr :=
  T_switch (alltrue conditions) logp (T_const NInf).

(** ** Leaf registry: classes [Variable] and [Parameter] *)

Record Variable_ : Type := mkVariable {
  v_id : nat;
  v_name : string;
  v_label : string;
  v_tvar : handle
}.

Record Parameter_ : Type := mkParameter {
  p_id : nat;
  p_name : string;
  p_label : string;
  p_lower : option Q;
  p_upper : option Q;
  p_tvar : handle
}.

(** The objects that carry [name] and [tvar] attributes. *)
Inductive Leaf : Type :=
  | OfVariable (v : Variable_)
  | OfParameter (p : Parameter_).

(** A value handed to a constructor: a number or a leaf object. *)
Inductive pyobj : Type :=
  | PyNum (q : Q)
  | PyLeaf (o : Leaf).

Definition oid (o : Leaf) : nat :=
  match o with OfVariable v => v_id v | OfParameter p => p_id p end.
Definition name (o : Leaf) : string :=
  match o with OfVariable v => v_name v | OfParameter p => p_name p end.
Definition tvar (o : Leaf) : handle :=
  match o with OfVariable v => v_tvar v | OfParameter p => p_tvar p end.

(** ** The world and the monad [M] *)

(** What the memo cache holds for one [Distribution] instance. *)
Record memo : Type := mkMemo {
  memo_logp : option callable;
  memo_grad : option callable_list
}.

Record world : Type := mkWorld {
  next_id : nat;             (* next fresh object identity *)
  cache : gmap nat memo;     (* memo cache, keyed by instance identity *)
  log : list string          (* messages passed to logging.info *)
}.

Definition M (A : Type) : Type := world -> result A * world.

Definition ret {A} (a : A) : M A := fun w => (Ok a, w).
Definition raise {A} (e : exn) : M A := fun w => (Raise e, w).
Definition bind {A B} (m : M A) (k : A -> M B) : M B :=
  fun w =>
    match m w with
    | (Ok a, w') => k a w'
    | (Raise e, w') => (Raise e, w')
    end.
Definition lift {A} (r : result A) : M A := fun w => (r, w).

Notation "x <- m ;; k" := (bind m (fun x => k))
  (at level 100, m at next level, right associativity).
Notation "m ;;; k" := (bind m (fun _ => k))
  (at level 100, right associativity).

Definition fresh_id : M nat :=
  fun w => (Ok (next_id w),
            mkWorld (S (next_id w)) (cache w) (log w)).

Definition logged (msg : string) (w : world) : world :=
  mkWorld (next_id w) (cache w) (log w ++ [msg]).

Definition logging_info (msg : string) : M unit :=
  fun w => (Ok tt, logged msg w).

(** [T.vector(name)] and [T.scalar(name)] allocate a new symbolic input. *)
Definition T_vector (nm : string) : M handle :=
  i <- fresh_id ;; ret (mkHandle i nm 1).
Definition T_scalar (nm : string) : M handle :=
  i <- fresh_id ;; ret (mkHandle i nm 0).

(** [if label: self.label = label else: self.label = name]; [None] and the
    empty string are both false. *)
Definition label_or_name (nm : string) (label : option string) : string :=
  match label with
  | Some l => if String.eqb l EmptyString then nm else l
  | None => nm
  end.

(** [Variable.__init__] / [var(name, label)] *)
Definition var (nm : string) (label : option string) : M Variable_ :=
  i <- fresh_id ;;
  t <- T_vector nm ;;
  ret (mkVariable i nm (label_or_name nm label) t).

(** [Parameter.__init__] / [par(name, label, lower, upper)] *)
Definition par (nm : string) (label : option string)
    (lower upper : option Q) : M Parameter_ :=
  i <- fresh_id ;;
  t <- T_scalar nm ;;
  ret (mkParameter i nm (label_or_name nm label) lower upper t).

(** ** [OrderedDict] *)

Definition OD (V : Type) : Type := list (string * V).

(** [od[k] = v]: an existing key keeps its position and takes the new
    value; a new key goes to the end. *)
Fixpoint od_set {V} (od : OD V) (k : string) (v : V) : OD V :=
  match od with
  | [] => [(k, v)]
  | (k', v') :: od' =>
      if String.eqb k' k then (k', v) :: od' else (k', v') :: od_set od' k v
  end.

Definition od_values {V} (od : OD V) : list V := map snd od.
Definition od_keys {V} (od : OD V) : list string := map fst od.

(** ** class [Distribution] *)

(** The fields set by [Distribution.__init__]. *)
Record Node (D : Type) : Type := mkNode {
  did : nat;
  self_var : OD Leaf;
  self_param : OD Leaf;
  self_dist : OD D
}.
Arguments mkNode {D}.
Arguments did {D}.
Arguments self_var {D}.
Arguments self_param {D}.
Arguments self_dist {D}.

(** The attributes added by the subclasses. *)
Inductive Class (D : Type) : Type :=
  | IsUniform (x lower upper : handle)
  | IsNormal (x mu sigma : handle)
  | IsMix2 (frac : handle) (dist1 dist2 : D).
Arguments IsUniform {D}.
Arguments IsNormal {D}.
Arguments IsMix2 {D}.

Inductive Distribution : Type :=
  | mkDistribution (self : Node Distribution) (cls : Class Distribution).

Definition base (d : Distribution) : Node Distribution :=
  match d with mkDistribution self _ => self end.
Definition class_of (d : Distribution) : Class Distribution :=
  match d with mkDistribution _ cls => cls end.

(** [Distribution.__init__] *)
Definition Distribution_init {D} : M (Node D) :=
  i <- fresh_id ;; ret (mkNode i [] [] []).

(** [self.var[var.name] = var; return var.tvar].  A number has no [name]
    attribute: the read raises before anything is stored. *)
Definition _add_var {D} (self : Node D) (v : pyobj)
  : result (Node D * handle) :=
  match v with
  | PyLeaf o =>
      Ok (mkNode (did self) (od_set (self_var self) (name o) o)
                 (self_param self) (self_dist self), tvar o)
  | PyNum _ => Raise (AttributeError "name")
  end.

(** [self.param[param.name] = param; return param.tvar]; the two
    [enforce_*] arguments are accepted and not used. *)
Definition _add_param {D} (self : Node D) (param : pyobj)
    (enforce_lower enforce_upper : option Q) : result (Node D * handle) :=
  match param with
  | PyLeaf o =>
      Ok (mkNode (did self) (self_var self)
                 (od_set (self_param self) (name o) o) (self_dist self),
          tvar o)
  | PyNum _ => Raise (AttributeError "name")
  end.

(** [self.dist[name] = dist; return dist] *)
Definition _add_dist {D} (self : Node D) (dist : D) (nm : string)
  : Node D * D :=
  (mkNode (did self) (self_var self) (self_param self)
          (od_set (self_dist self) nm dist), dist).

(** [par in unique], on identities. *)
Definition leaf_in (o : Leaf) (l : list Leaf) : bool :=
  existsb (fun o' => Nat.eqb (oid o') (oid o)) l.

(** [for par in ret: if par not in unique: unique.append(par)] *)
Definition unique (ret : list Leaf) : list Leaf :=
  fold_left (fun uniq o => if leaf_in o uniq then uniq else uniq ++ [o])
            ret [].

Fixpoint get_vars (d : Distribution) : list Leaf :=
  match d with
  | mkDistribution self _ =>
      unique (od_values (self_var self)
              ++ flat_map (fun kc => get_vars (snd kc)) (self_dist self))
  end.

Fixpoint get_params (d : Distribution) : list Leaf :=
  match d with
  | mkDistribution self _ =>
      unique (od_values (self_param self)
              ++ flat_map (fun kc => get_params (snd kc)) (self_dist self))
  end.

Definition get_dists (d : Distribution) : list Distribution :=
  od_values (self_dist (base d)).

Definition _get_vars_pars (d : Distribution) : list handle * list handle :=
  (map tvar (get_vars d), map tvar (get_params d)).

(** ** The concrete distributions and their [logp] *)

Definition two_pi : xreal := Fin (2 * PI).
Definition minus_half : xreal := Fin (- (1 / 2)).

Fixpoint logp (d : Distribution) : texpr :=
  match d with
  | mkDistribution _ (IsUniform x lower upper) =>
      T_log (T_div (T_const (Fin 1)) (T_sub (T_var upper) (T_var lower)))
  | mkDistribution _ (IsNormal x mu sigma) =>
      bound
        (T_log
           (T_mul
              (T_div (T_const (Fin 1))
                     (T_sqrt (T_mul (T_const two_pi) (T_pow (T_var sigma) 2))))
              (T_exp
                 (T_div (T_mul (T_const minus_half)
                               (T_pow (T_sub (T_var x) (T_var mu)) 2))
                        (T_pow (T_var sigma) 2)))))
        [T_gt (T_var sigma) (T_const (Fin 0))]
  | mkDistribution _ (IsMix2 frac dist1 dist2) =>
      bound
        (T_log
           (T_add (T_mul (T_var frac) (T_exp (logp dist1)))
                  (T_mul (T_sub (T_const (Fin 1)) (T_var frac))
                         (T_exp (logp dist2)))))
        [T_gt (T_var frac) (T_const (Fin 0));
         T_lt (T_var frac) (T_const (Fin 1))]
  end.

(** [Uniform(x, lower=0, upper=1)] *)
Definition Uniform (x : pyobj) (lower upper : option pyobj)
  : M Distribution :=
  let lower := default (PyNum 0) lower in
  let upper := default (PyNum 1) upper in
  self <- Distribution_init ;;
  r1 <- lift (_add_var self x) ;;
  r2 <- lift (_add_param (fst r1) lower None None) ;;
  r3 <- lift (_add_param (fst r2) upper None None) ;;
  ret (mkDistribution (fst r3) (IsUniform (snd r1) (snd r2) (snd r3))).

(** [Normal(x, mu=0, sigma=1)] *)
Definition Normal (x : pyobj) (mu sigma : option pyobj) : M Distribution :=
  let mu := default (PyNum 0) mu in
  let sigma := default (PyNum 1) sigma in
  self <- Distribution_init ;;
  r1 <- lift (_add_var self x) ;;
  r2 <- lift (_add_param (fst r1) mu None None) ;;
  r3 <- lift (_add_param (fst r2) sigma (Some 0%Q) None) ;;
  ret (mkDistribution (fst r3) (IsNormal (snd r1) (snd r2) (snd r3))).

(** [Mix2(frac, dist1, dist2)] *)
Definition Mix2 (frac : pyobj) (dist1 dist2 : Distribution)
  : M Distribution :=
  self <- Distribution_init ;;
  r1 <- lift (_add_param self frac None None) ;;
  let r2 := _add_dist (fst r1) dist1 "dist1" in
  let r3 := _add_dist (fst r2) dist2 "dist2" in
  ret (mkDistribution (fst r3) (IsMix2 (snd r1) (snd r2) (snd r3))).

(** ** Compilation cache *)

(** One memoised method: where its result lives in an instance's [memo]. *)
Record slot (A : Type) : Type := mkSlot {
  slot_get : memo -> option A;
  slot_set : A -> memo -> memo
}.
Arguments mkSlot {A}.
Arguments slot_get {A}.
Arguments slot_set {A}.

Definition empty_memo : memo := mkMemo None None.

Definition logp_slot : slot callable :=
  mkSlot memo_logp (fun f m => mkMemo (Some f) (memo_grad m)).
Definition grad_slot : slot callable_list :=
  mkSlot memo_grad (fun f m => mkMemo (memo_logp m) (Some f)).

Definition store {A} (s : slot A) (i : nat) (res : A) (w : world) : world :=
  mkWorld (next_id w)
          (<[i := slot_set s res (default empty_memo (cache w !! i))]> (cache w))
          (log w).

(** Modelled from the spec: the decorator [memoize] of module [memoize],
    which is not among the sources.  The result of a decorated method is
    created on the first call and kept on the instance (the key is the
    instance, by identity); every later call on that instance returns the
    kept result without running the method body again. *)
Definition memoize {A} (s : slot A) (func : Distribution -> M A)
    (self : Distribution) : M A :=
  fun w =>
    match cache w !! did (base self) ≫= slot_get s with
    | Some res => (Ok res, w)
    | None =>
        match func self w with
        | (Ok res, w') => (Ok res, store s (did (base self)) res w')
        | (Raise e, w') => (Raise e, w')
        end
    end.

(** The messages passed to [logging.info]. *)
Definition msg_logp : string := "Compiling logp...".
Definition msg_grad : string := "Compiling grad_logp...".
Definition msg_minimize : string :=
  "Minimizing negative log-likelihood of model...".

(** The result object of the minimizer: the solution [res_x] and whatever
    else it reports. *)
Record OptimizeResult (X D : Type) : Type := mkOptimizeResult {
  res_x : X;
  res_info : D
}.
Arguments mkOptimizeResult {X D}.
Arguments res_x {X D}.
Arguments res_info {X D}.

Definition missing_variable (nm : string) : exn :=
  ValueError ("Random variable " +:+ nm
              +:+ " required by model not found in dataset").
Definition missing_initial_value (nm : string) : exn :=
  ValueError ("No initial value specified for Parameter " +:+ nm).

(** First loop of [fit]: look every variable up in [data], by name. *)
Fixpoint data_loop (data : gmap string tval) (variables : list Leaf)
  : result (list tval) :=
  match variables with
  | [] => Ok []
  | v :: rest =>
      match data !! name v with
      | None => Raise (missing_variable (name v))
      | Some a =>
          match data_loop data rest with
          | Ok data_args => Ok (a :: data_args)
          | Raise e => Raise e
          end
      end
  end.

(** Second loop of [fit]: look every parameter up in [init], by name. *)
Fixpoint init_loop (init : gmap string xreal) (parameters : list Leaf)
  : result (list xreal) :=
  match parameters with
  | [] => Ok []
  | p :: rest =>
      match init !! name p with
      | None => Raise (missing_initial_value (name p))
      | Some a =>
          match init_loop init rest with
          | Ok x0 => Ok (a :: x0)
          | Raise e => Raise e
          end
      end
  end.

(** [for par, val in zip(parameters, results['x']): ret[par.name] = val] *)
Definition name_results (parameters : list Leaf) (xs : list xreal)
  : gmap string xreal :=
  fold_left (fun acc pv => <[name (fst pv) := snd pv]> acc)
            (zip parameters xs) ∅.

Section Engine.

(** The two external collaborators.  [T_grad cost wrt] is Theano's
    symbolic gradient, one expression per entry of [wrt], or the error it
    raises; [minimize] is
    [scipy.optimize.minimize(func, jac=func_grad, x0=x0)]. *)
Variable T_grad : texpr -> list handle -> result (list texpr).
Variable Diagnostics : Type.
Variable minimize :
  (list xreal -> option tval) ->
  (list xreal -> option (list tval)) ->
  list xreal -> result (OptimizeResult (list xreal) Diagnostics).

(** The bodies of the two memoised methods.  [hessian_compiled], which
    [fit] does not call, is left out. *)
Definition compile_logp (self : Distribution) : M callable :=
  logging_info msg_logp ;;;
  let vp := _get_vars_pars self in
  lift (function (fst vp ++ snd vp) (T_neg (T_sum (logp self)))).

Definition compile_grad (self : Distribution) : M callable_list :=
  logging_info msg_grad ;;;
  let vp := _get_vars_pars self in
  grads <- lift (T_grad (T_neg (T_sum (logp self))) (snd vp)) ;;
  lift (function_list (fst vp ++ snd vp) grads).

(** [@memoize def logp_compiled(self)] *)
Definition logp_compiled : Distribution -> M callable :=
  memoize logp_slot compile_logp.

(** [@memoize def grad_compiled(self)] *)
Definition grad_compiled : Distribution -> M callable_list :=
  memoize grad_slot compile_grad.

Definition fit (self : Distribution) (data : gmap string tval)
    (init : gmap string xreal)
  : M (OptimizeResult (gmap string xreal) Diagnostics) :=
  let variables := get_vars self in
  let parameters := get_params self in
  data_args <- lift (data_loop data variables) ;;
  x0 <- lift (init_loop init parameters) ;;
  obj_func <- logp_compiled self ;;
  obj_func_grad <- grad_compiled self ;;
  let func := fun pars => obj_func (data_args ++ map Scalar pars) in
  let func_grad := fun pars => obj_func_grad (data_args ++ map Scalar pars) in
  logging_info msg_minimize ;;;
  results <- lift (minimize func func_grad x0) ;;
  ret (mkOptimizeResult (name_results parameters (res_x results))
                        (res_info results)).

(** A sequence of calls on one instance, for statements about repeated
    use: each call is run for its effect on the world. *)
Inductive call : Type :=
  | CallLogp
  | CallGrad
  | CallFit (data : gmap string tval) (init : gmap string xreal).

Definition run_call (self : Distribution) (c : call) (w : world) : world :=
  match c with
  | CallLogp => snd (logp_compiled self w)
  | CallGrad => snd (grad_compiled self w)
  | CallFit data init => snd (fit self data init w)
  end.

Definition run_calls (self : Distribution) (cs : list call) (w : world)
  : world :=
  fold_left (fun w c => run_call self c w) cs w.

(** Calls on any instances, in any order. *)
Definition run_mixed (cs : list (Distribution * call)) (w : world) : world :=
  fold_left (fun w dc => run_call (fst dc) (snd dc) w) cs w.

End Engine.

(** What the cache keeps for instance [d] and the method of slot [s]. *)
Definition status {A} (s : slot A) (w : world) (d : Distribution)
  : option A :=
  cache w !! did (base d) ≫= slot_get s.

Definition cached {A} (s : slot A) (w : world) (d : Distribution) (res : A)
  : Prop :=
  status s w d = Some res.


(** How often a message was logged. *)
Definition count_log (msg : string) (w : world) : nat :=
  count_occ string_dec (log w) msg.

(** ** Reference definitions, written from the specification *)

(** Depth-first traversal without deduplication: a node's own leaves, then
    those of its children in registration order. *)
Fixpoint dfs_vars (d : Distribution) : list Leaf :=
  match d with
  | mkDistribution self _ =>
      od_values (self_var self)
      ++ flat_map (fun kc => dfs_vars (snd kc)) (self_dist self)
  end.

Fixpoint dfs_params (d : Distribution) : list Leaf :=
  match d with
  | mkDistribution self _ =>
      od_values (self_param self)
      ++ flat_map (fun kc => dfs_params (snd kc)) (self_dist self)
  end.

(** First-seen order: walking the list from the front, an object whose
    identity has been seen is dropped, any other is kept. *)
Fixpoint first_seen_from (seen : gset nat) (l : list Leaf) : list Leaf :=
  match l with
  | [] => []
  | o :: l' =>
      if decide (oid o ∈ seen) then first_seen_from seen l'
      else o :: first_seen_from ({[oid o]} ∪ seen) l'
  end.

Definition first_seen (l : list Leaf) : list Leaf := first_seen_from ∅ l.

Definition ids (l : list Leaf) : gset nat := list_to_set (map oid l).


(** The support mask in the words of the specification:
    [masked_logp = all(conditions) ? logp : -infinity], elementwise.  The
    conditions are combined by an elementwise logical AND into one boolean
    mask; where the mask is false the entry is replaced with [-inf]. *)
Definition all_conditions (conds : list (tensor bool))
  : option (tensor bool) :=
  fold_left (fun acc c => acc ≫= fun m => tmap2 andb m c)
            conds (Some (Scalar true)).

Definition mask_entry (b : bool) (x : xreal) : xreal :=
  if b then x else NInf.

Definition bound_spec (logp : tval) (conds : list tval) : option tval :=
  all_conditions (map (tmap truthy) conds) ≫= fun mask =>
  tmap2 mask_entry mask logp.

(** Every entry of a tensor satisfies [P]. *)
Definition tForall {A} (P : A -> Prop) (u : tensor A) : Prop :=
  match u with
  | Scalar a => P a
  | Vector l => Forall P l
  end.

Definition zero_one (c : xreal) : Prop := c = Fin 0 \/ c = Fin 1.

(** Rebinding one input of an environment. *)
Definition env_set (rho : env) (h : handle) (v : tval) : env :=
  fun i => if Nat.eqb i (hid h) then Some v else rho i.

(** The mixture formula of the specification on values:
    [log(frac exp(l1) + (1 - frac) exp(l2))], elementwise. *)
Definition Mix2_spec (frac : xreal) (l1 l2 : tval) : option tval :=
  tmap xlog
    <$> tmap2 xadd (tmap (fun a => xmul frac (xexp a)) l1)
                   (tmap (fun a => xmul (xsub (Fin 1) frac) (xexp a)) l2).

(** Forgetting the bounds of a parameter; everything else stays. *)
Definition forget_bounds (o : Leaf) : Leaf :=
  match o with
  | OfVariable v => OfVariable v
  | OfParameter p =>
      OfParameter (mkParameter (p_id p) (p_name p) (p_label p) None None
                               (p_tvar p))
  end.

Definition od_map {V W} (f : V -> W) (od : OD V) : OD W :=
  map (fun kv => (fst kv, f (snd kv))) od.

Fixpoint forget (d : Distribution) : Distribution :=
  match d with
  | mkDistribution self cls =>
      mkDistribution
        (mkNode (did self)
                (od_map forget_bounds (self_var self))
                (od_map forget_bounds (self_param self))
                (map (fun kc => (fst kc, forget (snd kc))) (self_dist self)))
        (match cls with
         | IsUniform x lower upper => IsUniform x lower upper
         | IsNormal x mu sigma => IsNormal x mu sigma
         | IsMix2 frac dist1 dist2 => IsMix2 frac (forget dist1) (forget dist2)
         end)
  end.

(** Two models that differ at most in the [lower]/[upper] fields of their
    parameters. *)
Definition same_up_to_bounds (d1 d2 : Distribution) : Prop :=
  forget d1 = forget d2.

(** A value fits a dataset of [n] rows: a scalar, or a vector of [n]
    entries. *)
Definition has_rows (n : nat) (v : tval) : Prop :=
  match v with
  | Scalar _ => True
  | Vector l => length l = n
  end.

(** The identities of the handles of a list of leaves. *)
Definition handle_ids (l : list Leaf) : list nat :=
  map (fun o => hid (tvar o)) l.

(** Every symbolic input of the log-density belongs to a collected
    variable or parameter. *)
Definition inputs_collected (d : Distribution) : Prop :=
  forall h, h ∈ inputs_of (logp d) ->
            hid h ∈ handle_ids (get_vars d ++ get_params d).

(** Every collected variable and parameter is a symbolic input of the
    log-density. *)
Definition inputs_used (d : Distribution) : Prop :=
  forall i, i ∈ handle_ids (get_vars d ++ get_params d) ->
            i ∈ map hid (inputs_of (logp d)).

(** Nothing registered was overwritten: the handles a node's density uses
    are those of leaves still held in the node's own maps, and the
    components of a mixture are among its children. *)
Fixpoint registered (d : Distribution) : Prop :=
  match d with
  | mkDistribution self cls =>
      let own := handle_ids (od_values (self_var self)
                             ++ od_values (self_param self)) in
      match cls with
      | IsUniform x lower upper =>
          hid x ∈ own /\ hid lower ∈ own /\ hid upper ∈ own
      | IsNormal x mu sigma =>
          hid x ∈ own /\ hid mu ∈ own /\ hid sigma ∈ own
      | IsMix2 frac dist1 dist2 =>
          hid frac ∈ own
          /\ dist1 ∈ od_values (self_dist self)
          /\ dist2 ∈ od_values (self_dist self)
          /\ registered dist1 /\ registered dist2
      end
  end.

(** Leaves are what their identity says: two reachable leaves with the
    same identity carry the same handle. *)
Definition consistent (d : Distribution) : Prop :=
  forall o o',
    o ∈ dfs_vars d ++ dfs_params d ->
    o' ∈ dfs_vars d ++ dfs_params d ->
    oid o = oid o' -> tvar o = tvar o'.

(** ** Example models *)

Definition w0 : world := mkWorld 0 ∅ [].

Definition leafV (v : Variable_) : pyobj := PyLeaf (OfVariable v).
Definition leafP (p : Parameter_) : pyobj := PyLeaf (OfParameter p).

(** A mixture of two normals over one variable.  The two means are distinct
    objects that are both named [mu]; the standard deviation is one object
    shared by both components. *)
Definition shared_sigma_model : M Distribution :=
  x <- var "x" None ;;
  mu1 <- par "mu" None None None ;;
  mu2 <- par "mu" None None None ;;
  sigma <- par "sigma" None (Some 0%Q) None ;;
  frac <- par "frac" None None None ;;
  n1 <- Normal (leafV x) (Some (leafP mu1)) (Some (leafP sigma)) ;;
  n2 <- Normal (leafV x) (Some (leafP mu2)) (Some (leafP sigma)) ;;
  Mix2 (leafP frac) n1 n2.

(** The value of a run that raised nothing. *)
Definition value_of {A} (r : result A * world) : option A :=
  match fst r with Ok a => Some a | Raise _ => None end.


(** A single normal over [x] with parameters [mu] and [sigma]. *)
Definition normal_model : M Distribution :=
  x <- var "x" None ;;
  mu <- par "mu" None None None ;;
  sigma <- par "sigma" None None None ;;
  Normal (leafV x) (Some (leafP mu)) (Some (leafP sigma)).

(** The object that [normal_model] builds in the initial world. *)
Definition normal_example : Distribution :=
  let x := OfVariable (mkVariable 0 "x" "x" (mkHandle 1 "x" 1)) in
  let mu := OfParameter (mkParameter 2 "mu" "mu" None None
                                     (mkHandle 3 "mu" 0)) in
  let sigma := OfParameter (mkParameter 4 "sigma" "sigma" None None
                                        (mkHandle 5 "sigma" 0)) in
  mkDistribution (mkNode 6 [("x", x)] [("mu", mu); ("sigma", sigma)] [])
                 (IsNormal (tvar x) (tvar mu) (tvar sigma)).

(** A normal whose parameter arguments are [Variable] objects. *)
Definition normal_of_variables : M Distribution :=
  x <- var "x" None ;;
  m <- var "m" None ;;
  s <- var "s" None ;;
  Normal (leafV x) (Some (leafV m)) (Some (leafV s)).

(** Stand-ins for the external collaborators, for closed examples: a
    gradient that is zero times the cost (an expression over the inputs of
    the cost) and a minimizer that returns its starting point. *)
Definition zero_grad (cost : texpr) (wrt : list handle)
  : result (list texpr) :=
  Ok (map (fun _ => T_mul (T_const (Fin 0)) cost) wrt).

Definition minimize_nothing
    (func : list xreal -> option tval)
    (jac : list xreal -> option (list tval))
    (x0 : list xreal) : result (OptimizeResult (list xreal) unit) :=
  Ok (mkOptimizeResult x0 tt).

(** An argument is acceptable to [_add_var] and [_add_param] when it is an
    object with [name] and [tvar] attributes. *)
Definition is_leaf (o : pyobj) : Prop :=
  match o with PyLeaf _ => True | PyNum _ => False end.

Definition is_Parameter (o : pyobj) : Prop :=
  match o with PyLeaf (OfParameter _) => True | _ => False end.

Definition raises_AttributeError {A} (r : result A * world) : Prop :=
  exists attr, fst r = Raise (AttributeError attr).

Definition succeeds {A} (r : result A * world) : Prop :=
  exists a, fst r = Ok a.


(** A uniform over [x] on [[lo, hi]]. *)
Definition uniform_model : M Distribution :=
  x <- var "x" None ;;
  lo <- par "lo" None None None ;;
  hi <- par "hi" None None None ;;
  Uniform (leafV x) (Some (leafP lo)) (Some (leafP hi)).

Definition uniform_example : Distribution :=
  let x := OfVariable (mkVariable 0 "x" "x" (mkHandle 1 "x" 1)) in
  let lo := OfParameter (mkParameter 2 "lo" "lo" None None
                                     (mkHandle 3 "lo" 0)) in
  let hi := OfParameter (mkParameter 4 "hi" "hi" None None
                                     (mkHandle 5 "hi" 0)) in
  mkDistribution (mkNode 6 [("x", x)] [("lo", lo); ("hi", hi)] [])
                 (IsUniform (tvar x) (tvar lo) (tvar hi)).

(** Data [x = [5]] with [lo = 0], [hi = 1]: the observation lies outside
    the support. *)
Definition outside_env : env :=
  bind_inputs (fst (_get_vars_pars uniform_example)
               ++ snd (_get_vars_pars uniform_example))
              [Vector [Fin 5]; Scalar (Fin 0); Scalar (Fin 1)].

(** A mixture of two copies of [uniform_example] with fraction handle 9. *)
Definition mixture_example : Distribution :=
  mkDistribution
    (mkNode 10 []
       [("frac", OfParameter (mkParameter 8 "frac" "frac" None None
                                          (mkHandle 9 "frac" 0)))]
       [("dist1", uniform_example); ("dist2", uniform_example)])
    (IsMix2 (mkHandle 9 "frac" 0) uniform_example uniform_example).

(** The data of [outside_env] together with a value for [frac]. *)
Definition mixture_env (frac : R) : env :=
  env_set outside_env (mkHandle 9 "frac" 0) (Scalar (Fin frac)).


(** [normal_example] with bounds on both parameters. *)
Definition normal_example_bounded : Distribution :=
  let x := OfVariable (mkVariable 0 "x" "x" (mkHandle 1 "x" 1)) in
  let mu := OfParameter (mkParameter 2 "mu" "mu" (Some (-5)%Q) (Some 5%Q)
                                     (mkHandle 3 "mu" 0)) in
  let sigma := OfParameter (mkParameter 4 "sigma" "sigma" (Some 0%Q) None
                                        (mkHandle 5 "sigma" 0)) in
  mkDistribution (mkNode 6 [("x", x)] [("mu", mu); ("sigma", sigma)] [])
                 (IsNormal (tvar x) (tvar mu) (tvar sigma)).


(** A uniform whose two bounds are distinct parameter objects with the same
    name: the second registration overwrites the first in [self.param]. *)
Definition clash_model : M Distribution :=
  x <- var "x" None ;;
  a1 <- par "a" None None None ;;
  a2 <- par "a" None None None ;;
  Uniform (leafV x) (Some (leafP a1)) (Some (leafP a2)).

Definition clash_example : Distribution :=
  let x := OfVariable (mkVariable 0 "x" "x" (mkHandle 1 "x" 1)) in
  let a2 := OfParameter (mkParameter 4 "a" "a" None None
                                     (mkHandle 5 "a" 0)) in
  mkDistribution (mkNode 6 [("x", x)] [("a", a2)] [])
                 (IsUniform (tvar x) (mkHandle 3 "a" 0) (tvar a2)).

(** A property of the components of a mixture. *)
Definition Class_Forall (P : Distribution -> Prop) (cls : Class Distribution)
  : Prop :=
  match cls with
  | IsMix2 _ dist1 dist2 => P dist1 /\ P dist2
  | _ => True
  end.

(** ** Further definitions for the properties of Part II *)

(** [od[k]] *)
Fixpoint od_get {V} (od : OD V) (k : string) : option V :=
  match od with
  | [] => None
  | (k', v) :: od' => if String.eqb k' k then Some v else od_get od' k
  end.

(** What two registrations leave in a map that held nothing: both leaves
    in order, or the second alone when it took the first one's name. *)
Definition two_registered (m s : Leaf) : list Leaf :=
  if String.eqb (name m) (name s) then [s] else [m; s].

(** The world after one object was allocated. *)
Definition allocated (w : world) : world :=
  mkWorld (S (next_id w)) (cache w) (log w).

(** The node a leaf distribution is left with after its three
    registrations. *)
Definition leaf_node (i : nat) (x m s : Leaf) : Node Distribution :=
  mkNode i [(name x, x)] (od_set [(name m, m)] (name s) s) [].

(** The node a mixture is left with after its registrations. *)
Definition mix_node (i : nat) (o : Leaf) (dist1 dist2 : Distribution)
  : Node Distribution :=
  mkNode i [] [(name o, o)] [("dist1", dist1); ("dist2", dist2)].

(** What the bodies of the two memoised methods give for [d]: the
    compiled callable, or the error of the compilation. *)
Definition objective (d : Distribution) : result callable :=
  function (fst (_get_vars_pars d) ++ snd (_get_vars_pars d))
           (T_neg (T_sum (logp d))).

Definition gradient (T_grad : texpr -> list handle -> result (list texpr))
    (d : Distribution) : result callable_list :=
  match T_grad (T_neg (T_sum (logp d))) (snd (_get_vars_pars d)) with
  | Ok grads =>
      function_list (fst (_get_vars_pars d) ++ snd (_get_vars_pars d)) grads
  | Raise e => Raise e
  end.

(** What is kept after a compilation: the callable, if there is one. *)
Definition kept {A} (r : result A) : option A :=
  match r with Ok a => Some a | Raise _ => None end.

(** The cache is sound for [d]: what it keeps for [d], if anything, is
    what compiling [d] gives. *)
Definition sound (T_grad : texpr -> list handle -> result (list texpr))
    (w : world) (d : Distribution) : Prop :=
  (forall f, status logp_slot w d = Some f -> objective d = Ok f)
  /\ (forall g, status grad_slot w d = Some g -> gradient T_grad d = Ok g).

(** In a sequence of calls, an object with the identity of [d] is [d]. *)
Definition identifies (d : Distribution) (cs : list (Distribution * call))
  : Prop :=
  Forall (fun dc => did (base (fst dc)) = did (base d) -> fst dc = d) cs.

(** The two closures [fit] hands to the minimizer: the data stay fixed,
    the parameters vary. *)
Definition fit_func {A} (obj_func : list tval -> option A)
    (data_args : list tval) : list xreal -> option A :=
  fun pars => obj_func (data_args ++ map Scalar pars).

(** The environment in which a candidate parameter vector is judged. *)
Definition fit_env (d : Distribution) (data_args : list tval)
    (pars : list xreal) : env :=
  bind_inputs (map tvar (get_vars d) ++ map tvar (get_params d))
              (data_args ++ map Scalar pars).

(** The handles a distribution's density is written over: its own class
    attributes and, for a mixture, those of its two components. *)
Fixpoint density_handles (d : Distribution) : list handle :=
  match d with
  | mkDistribution _ (IsUniform x lower upper) => [upper; lower]
  | mkDistribution _ (IsNormal x mu sigma) => [x; mu; sigma]
  | mkDistribution _ (IsMix2 frac dist1 dist2) =>
      frac :: density_handles dist1 ++ density_handles dist2
  end.

(** The parameters [shared_sigma_model] collects: the fraction, the first
    mean, the shared standard deviation, the second mean. *)
Definition shared_sigma_params : list Leaf :=
  [OfParameter (mkParameter 8 "frac" "frac" None None (mkHandle 9 "frac" 0));
   OfParameter (mkParameter 2 "mu" "mu" None None (mkHandle 3 "mu" 0));
   OfParameter (mkParameter 6 "sigma" "sigma" (Some 0%Q) None
                            (mkHandle 7 "sigma" 0));
   OfParameter (mkParameter 4 "mu" "mu" None None (mkHandle 5 "mu" 0))].

(* ================================================================== *)
(** * Part II.  Properties                                             *)
(* ================================================================== *)

(** ** Induction over distribution trees *)

Section Distribution_induction.

Variable P : Distribution -> Prop.
Hypothesis step : forall self cls,
  Forall (fun kc => P (snd kc)) (self_dist self) ->
  Class_Forall P cls ->
  P (mkDistribution self cls).

Fixpoint Distribution_tree_ind (d : Distribution) : P d :=
  match d with
  | mkDistribution self cls =>
      step self cls
        ((fix children (l : OD Distribution)
            : Forall (fun kc => P (snd kc)) l :=
            match l with
            | [] => List.Forall_nil _
            | kc :: l' =>
                List.Forall_cons _ kc l' (Distribution_tree_ind (snd kc))
                            (children l')
            end) (self_dist self))
        (match cls as c return Class_Forall P c with
         | IsMix2 _ dist1 dist2 =>
             conj (Distribution_tree_ind dist1) (Distribution_tree_ind dist2)
         | _ => I
         end)
  end.

End Distribution_induction.

(** ** Deduplication *)

Lemma leaf_in_spec o l : leaf_in o l = true <-> oid o ∈ ids l.
Proof.
  unfold leaf_in, ids. rewrite existsb_exists, elem_of_list_to_set.
  rewrite list_elem_of_In, in_map_iff. split.
  - intros (o' & Hin & He). apply Nat.eqb_eq in He. eauto.
  - intros (o' & He & Hin). exists o'. split; [done|]. by apply Nat.eqb_eq.
Qed.

Lemma ids_app l1 l2 : ids (l1 ++ l2) = ids l1 ∪ ids l2.
Proof. unfold ids. rewrite map_app, list_to_set_app_L. done. Qed.

Lemma ids_cons o l : ids (o :: l) = {[oid o]} ∪ ids l.
Proof. done. Qed.

Lemma first_seen_from_app seen l1 l2 :
  first_seen_from seen (l1 ++ l2)
  = first_seen_from seen l1 ++ first_seen_from (seen ∪ ids l1) l2.
Proof.
  revert seen. induction l1 as [|o l1 IH]; intros seen; simpl.
  - f_equal. unfold ids; simpl. set_solver.
  - rewrite ids_cons. case_decide.
    + rewrite IH. do 2 f_equal. set_solver.
    + simpl. rewrite IH. do 3 f_equal. set_solver.
Qed.

Lemma ids_first_seen_from seen l :
  seen ∪ ids (first_seen_from seen l) = seen ∪ ids l.
Proof.
  revert seen. induction l as [|o l IH]; intros seen; simpl; [done|].
  case_decide.
  - rewrite IH, ids_cons. set_solver.
  - rewrite !ids_cons.
    assert (seen ∪ ({[oid o]} ∪ ids (first_seen_from ({[oid o]} ∪ seen) l))
            = ({[oid o]} ∪ seen) ∪ ids (first_seen_from ({[oid o]} ∪ seen) l))
      as -> by set_solver.
    rewrite IH. set_solver.
Qed.

Lemma first_seen_from_idem seen seen' l :
  seen' ⊆ seen ->
  first_seen_from seen (first_seen_from seen' l) = first_seen_from seen l.
Proof.
  revert seen seen'. induction l as [|o l IH]; intros seen seen' Hsub; simpl;
    [done|].
  destruct (decide (oid o ∈ seen')) as [Hin'|Hnin'].
  - rewrite decide_True by set_solver. by apply IH.
  - simpl. case_decide.
    + apply IH. set_solver.
    + f_equal. apply IH. set_solver.
Qed.

(** The loop of the source, started from any accumulator. *)
Lemma unique_loop acc l :
  fold_left (fun uniq o => if leaf_in o uniq then uniq else uniq ++ [o]) l acc
  = acc ++ first_seen_from (ids acc) l.
Proof.
  revert acc. induction l as [|o l IH]; intros acc; simpl.
  - by rewrite app_nil_r.
  - destruct (leaf_in o acc) eqn:Hin.
    + apply leaf_in_spec in Hin. rewrite decide_True by done. apply IH.
    + assert (oid o ∉ ids acc) as Hn.
      { intros Hc. apply leaf_in_spec in Hc. congruence. }
      rewrite decide_False by done. rewrite IH, <- app_assoc. simpl.
      do 3 f_equal. rewrite ids_app. unfold ids at 2. simpl. set_solver.
Qed.

Lemma unique_first_seen l : unique l = first_seen l.
Proof. unfold unique. rewrite unique_loop. done. Qed.

Lemma NoDup_first_seen_from seen l :
  NoDup (map oid (first_seen_from seen l))
  /\ (forall i, i ∈ map oid (first_seen_from seen l) -> i ∉ seen).
Proof.
  revert seen. induction l as [|o l IH]; intros seen; simpl.
  - split; [constructor|]. intros i Hi. by apply elem_of_nil in Hi.
  - case_decide; [apply IH|]. simpl.
    destruct (IH ({[oid o]} ∪ seen)) as [Hnd Hout].
    split.
    + constructor; [|done]. intros Hc. apply Hout in Hc. set_solver.
    + intros i Hi. apply elem_of_cons in Hi as [->|Hi]; [done|].
      apply Hout in Hi. set_solver.
Qed.

Lemma first_seen_from_sub seen l o :
  o ∈ first_seen_from seen l -> o ∈ l.
Proof.
  revert seen. induction l as [|a l IH]; intros seen; simpl; [done|].
  case_decide.
  - intros Hin. right. eauto.
  - intros [->|Hin]%elem_of_cons; [left|right; eauto].
Qed.

Lemma ids_first_seen l : ids (first_seen l) = ids l.
Proof.
  pose proof (ids_first_seen_from ∅ l) as H. unfold first_seen.
  by rewrite !(left_id_L ∅ (∪)) in H.
Qed.

Lemma first_seen_flat_map (g h : Distribution -> list Leaf)
    (cs : OD Distribution) seen :
  Forall (fun kc => g (snd kc) = first_seen (h (snd kc))) cs ->
  first_seen_from seen (flat_map (fun kc => g (snd kc)) cs)
  = first_seen_from seen (flat_map (fun kc => h (snd kc)) cs).
Proof.
  intros HF. revert seen. induction HF as [|kc cs Hkc _ IH]; intros seen;
    simpl; [done|].
  rewrite !first_seen_from_app, Hkc, ids_first_seen, IH. f_equal.
  unfold first_seen. apply first_seen_from_idem. set_solver.
Qed.

Lemma get_vars_first_seen d : get_vars d = first_seen (dfs_vars d).
Proof.
  induction d as [self cls IH _] using Distribution_tree_ind. simpl.
  rewrite unique_first_seen. unfold first_seen.
  rewrite !first_seen_from_app. f_equal. by apply first_seen_flat_map.
Qed.

Lemma get_params_first_seen d : get_params d = first_seen (dfs_params d).
Proof.
  induction d as [self cls IH _] using Distribution_tree_ind. simpl.
  rewrite unique_first_seen. unfold first_seen.
  rewrite !first_seen_from_app. f_equal. by apply first_seen_flat_map.
Qed.

Lemma first_seen_covers l o : o ∈ l -> oid o ∈ map oid (first_seen l).
Proof.
  intros Hin. apply (elem_of_list_to_set (C := gset nat)).
  fold (ids (first_seen l)). rewrite ids_first_seen.
  apply elem_of_list_to_set. by apply list_elem_of_fmap_2.
Qed.

Lemma collected_reachable d :
  (forall o, o ∈ dfs_vars d -> oid o ∈ map oid (get_vars d))
  /\ (forall o, o ∈ get_vars d -> o ∈ dfs_vars d)
  /\ (forall o, o ∈ dfs_params d -> oid o ∈ map oid (get_params d))
  /\ (forall o, o ∈ get_params d -> o ∈ dfs_params d).
Proof.
  rewrite get_vars_first_seen, get_params_first_seen. unfold first_seen.
  repeat split;
    try (intros o Ho; by apply first_seen_covers);
    try (intros o Ho; by apply first_seen_from_sub in Ho).
Qed.

(** Registration: a leaf registered under a name that the map does not hold
    yet goes to the end of the map; under a name already present it takes
    the place of the earlier entry. *)
Lemma od_values_set_fresh {V} (od : OD V) k v :
  k ∉ od_keys od -> od_values (od_set od k v) = od_values od ++ [v].
Proof.
  induction od as [|[k' v'] od IH]; simpl; [done|].
  intros Hn. destruct (String.eqb_spec k' k) as [->|Hne].
  - exfalso. apply Hn. left.
  - simpl. f_equal. apply IH. intros Hc. apply Hn. by right.
Qed.

Lemma od_keys_set_present {V} (od : OD V) k v :
  k ∈ od_keys od -> od_keys (od_set od k v) = od_keys od.
Proof.
  induction od as [|[k' v'] od IH]; simpl.
  - intros Hc. by apply elem_of_nil in Hc.
  - intros Hin. destruct (String.eqb_spec k' k) as [->|Hne]; [done|].
    simpl. f_equal. apply IH. apply elem_of_cons in Hin as [->|Hin]; done.
Qed.

(** C1.  For every distribution tree, [get_vars] and [get_params] return
    the leaves reachable from the root in first-seen order of the
    depth-first traversal (own leaves, then the children's, children in
    registration order), each object identity exactly once, every reachable
    identity included and nothing else.  Both are functions of the tree
    alone, so repeated calls return the same list. *)
Theorem collect_dedup_first_seen (d : Distribution) :
  (get_vars d = first_seen (dfs_vars d)
   /\ NoDup (map oid (get_vars d))
   /\ (forall o, o ∈ dfs_vars d -> oid o ∈ map oid (get_vars d))
   /\ (forall o, o ∈ get_vars d -> o ∈ dfs_vars d))
  /\
  (get_params d = first_seen (dfs_params d)
   /\ NoDup (map oid (get_params d))
   /\ (forall o, o ∈ dfs_params d -> oid o ∈ map oid (get_params d))
   /\ (forall o, o ∈ get_params d -> o ∈ dfs_params d)).
Proof.
  rewrite get_vars_first_seen, get_params_first_seen. unfold first_seen.
  repeat split;
    try apply NoDup_first_seen_from;
    try (intros o Ho; by apply first_seen_covers);
    try (intros o Ho; by apply first_seen_from_sub in Ho).
Qed.

(** In the two-normal mixture the shared [sigma] is collected once and the
    two distinct objects named [mu] are both collected, in depth-first
    order after the root's own [frac]. *)
Example shared_sigma_collected :
  (fun d => (map name (get_vars d), map name (get_params d),
             map oid (get_params d)))
    <$> value_of (shared_sigma_model w0)
  = Some (["x"], ["frac"; "mu"; "sigma"; "mu"], [8; 2; 6; 4]).
Proof. reflexivity. Qed.

(** ** Numbers and tensors *)

Lemma Rsign_0 : Rsign 0 = Zero.
Proof.
  unfold Rsign. destruct (total_order_T 0 0) as [[H|H]|H]; [lra|done|lra].
Qed.

Lemma Rsign_pos r : (0 < r)%R -> Rsign r = Pos.
Proof.
  intros Hr. unfold Rsign.
  destruct (total_order_T r 0) as [[H|H]|H]; [lra|lra|done].
Qed.

Lemma Rsign_nonzero r : r <> 0%R -> Rsign r <> Zero.
Proof.
  intros Hr. unfold Rsign.
  destruct (total_order_T r 0) as [[H|H]|H]; done.
Qed.

(** The operations at finite arguments. *)
Lemma xsub_fin x y : xsub (Fin x) (Fin y) = Fin (x - y).
Proof. done. Qed.

Lemma xdiv_fin x y : y <> 0%R -> xdiv (Fin x) (Fin y) = Fin (x / y).
Proof.
  intros Hy. simpl. pose proof (Rsign_nonzero y Hy).
  by destruct (Rsign y).
Qed.

Lemma xlog_fin x : (0 < x)%R -> xlog (Fin x) = Fin (ln x).
Proof. intros Hx. simpl. by rewrite Rsign_pos. Qed.

Lemma xltb_fin_true x y : (x < y)%R -> xltb (Fin x) (Fin y) = true.
Proof. intros H. simpl. by destruct (Rlt_dec x y). Qed.

Lemma xltb_fin_false x y : (y <= x)%R -> xltb (Fin x) (Fin y) = false.
Proof. intros H. simpl. destruct (Rlt_dec x y); [lra|done]. Qed.

Lemma truthy_0 : truthy (Fin 0) = false.
Proof. simpl. by rewrite Rsign_0. Qed.

Lemma truthy_1 : truthy (Fin 1) = true.
Proof. simpl. rewrite Rsign_pos; [done|lra]. Qed.

Lemma xmul_zero_one a b :
  zero_one a -> zero_one b ->
  zero_one (xmul a b) /\ truthy (xmul a b) = truthy a && truthy b.
Proof.
  intros [->| ->] [->| ->]; simpl xmul.
  - replace (0 * 0)%R with 0%R by lra. rewrite truthy_0. split; [by left|done].
  - replace (0 * 1)%R with 0%R by lra. rewrite truthy_0. split; [by left|done].
  - replace (1 * 0)%R with 0%R by lra. rewrite truthy_0, truthy_1.
    split; [by left|done].
  - replace (1 * 1)%R with 1%R by lra. rewrite truthy_1. split; [by right|done].
Qed.

Lemma xmul_1_zero_one b : zero_one b -> xmul (Fin 1) b = b.
Proof. intros [->| ->]; simpl; f_equal; lra. Qed.

Lemma map_id_Forall {A} (P : A -> Prop) (f : A -> A) l :
  (forall a, P a -> f a = a) -> Forall P l -> map f l = l.
Proof.
  intros Hf HF. induction HF as [|a l Ha _ IH]; simpl; [done|].
  by rewrite Hf, IH.
Qed.

(** Two entrywise operations that agree on the entries present agree on
    the tensors, failures included. *)
Lemma tmap2_ext_Forall {A B C} (P : A -> Prop) (Q : B -> Prop)
    (f g : A -> B -> C) u v :
  (forall a b, P a -> Q b -> f a b = g a b) ->
  tForall P u -> tForall Q v -> tmap2 f u v = tmap2 g u v.
Proof.
  intros Hfg Hu Hv. destruct u as [a|l1], v as [b|l2]; simpl in *.
  - by rewrite Hfg.
  - do 2 f_equal. induction Hv as [|b l2 Hb _ IH]; simpl; [done|].
    by rewrite Hfg, IH.
  - do 2 f_equal. induction Hu as [|a l1 Ha _ IH]; simpl; [done|].
    by rewrite Hfg, IH.
  - destruct (length l1 =? length l2); [|done]. do 2 f_equal.
    revert l2 Hv. induction Hu as [|a l1 Ha _ IH]; intros l2 Hv; [done|].
    destruct Hv as [|b l2 Hb Hv]; simpl; [done|]. by rewrite Hfg, IH.
Qed.

Lemma tmap2_tmap {A A' B B' C} (f : A' -> B' -> C) (g : A -> A')
    (h : B -> B') u v :
  tmap2 f (tmap g u) (tmap h v) = tmap2 (fun a b => f (g a) (h b)) u v.
Proof.
  destruct u as [a|l1], v as [b|l2]; simpl; rewrite ?length_map;
    try done; try (by rewrite map_map).
  destruct (length l1 =? length l2); [|done]. do 2 f_equal.
  revert l2. induction l1 as [|a l1 IH]; intros [|b l2]; simpl; [done..|].
  by rewrite IH.
Qed.

Lemma tmap_tmap2 {A B C D} (k : C -> D) (f : A -> B -> C) u v :
  tmap k <$> tmap2 f u v = tmap2 (fun a b => k (f a b)) u v.
Proof.
  destruct u as [a|l1], v as [b|l2]; simpl; try done;
    try (by rewrite map_map).
  destruct (length l1 =? length l2); [|done]. simpl. do 2 f_equal.
  revert l2. induction l1 as [|a l1 IH]; intros [|b l2]; simpl; [done..|].
  by rewrite IH.
Qed.

Lemma tmap2_Forall {A B C} (P : A -> Prop) (Q : B -> Prop) (S : C -> Prop)
    (f : A -> B -> C) u v w :
  (forall a b, P a -> Q b -> S (f a b)) ->
  tForall P u -> tForall Q v -> tmap2 f u v = Some w -> tForall S w.
Proof.
  intros Hf Hu Hv. destruct u as [a|l1], v as [b|l2]; simpl in *.
  - intros [= <-]. by apply Hf.
  - intros [= <-]. simpl. apply Forall_fmap. eapply Forall_impl; [done|].
    intros; by apply Hf.
  - intros [= <-]. simpl. apply Forall_fmap. eapply Forall_impl; [done|].
    intros; by apply Hf.
  - destruct (length l1 =? length l2); [|done]. intros [= <-]. simpl.
    clear -Hf Hu Hv. revert l2 Hv.
    induction Hu as [|a l1 Ha _ IH]; intros l2 Hv; [constructor|].
    destruct Hv as [|b l2 Hb Hv]; simpl; [constructor|].
    constructor; [by apply Hf | by apply IH].
Qed.

Lemma tmap_id_Forall {A} (P : A -> Prop) (f : A -> A) u :
  (forall a, P a -> f a = a) -> tForall P u -> tmap f u = u.
Proof.
  intros Hf Hu. destruct u as [a|l]; simpl in *.
  - by rewrite Hf.
  - f_equal. by eapply map_id_Forall.
Qed.

(** ** [bound] *)

(** [T.switch] against the constant [-inf] is the masking step. *)
Lemma tswitch_mask P L :
  tswitch P L (Scalar NInf) = tmap2 mask_entry (tmap truthy P) L.
Proof.
  unfold tswitch. destruct P as [c|lp], L as [x|l]; simpl; try done.
  - by rewrite map_map.
  - by rewrite map_map.
  - rewrite !length_map. destruct (length lp =? length l); [|done].
    do 2 f_equal. revert l.
    induction lp as [|c lp IH]; intros [|x l]; simpl; [done..|].
    by rewrite IH.
Qed.

Lemma eval_alltrue_step rho ret c P C :
  eval rho ret = Some P -> eval rho c = Some C -> tForall zero_one C ->
  eval rho (alltrue_step ret c) = tmap2 xmul P C.
Proof.
  intros HP HC H01. unfold alltrue_step. cbn [eval]. rewrite HP, HC.
  cbn [lift2].
  assert (tmap2 xmul (Scalar (Fin 1)) C = Some (tmap (xmul (Fin 1)) C))
    as -> by (by destruct C).
  erewrite tmap_id_Forall; [done| |done]. apply xmul_1_zero_one.
Qed.

Lemma eval_alltrue_none rho conds ret :
  eval rho ret = None -> eval rho (fold_left alltrue_step conds ret) = None.
Proof.
  revert ret. induction conds as [|c conds IH]; intros ret Hret; [done|].
  cbn [fold_left]. apply IH. unfold alltrue_step. cbn [eval]. by rewrite Hret.
Qed.

Lemma and_loop_none (l : list (tensor bool)) :
  fold_left (fun (acc : option (tensor bool)) c =>
               acc ≫= fun m => tmap2 andb m c) l None = None.
Proof. induction l; simpl; done. Qed.

Lemma truthy_product P C :
  tForall zero_one P -> tForall zero_one C ->
  tmap2 andb (tmap truthy P) (tmap truthy C) = tmap truthy <$> tmap2 xmul P C.
Proof.
  intros HP HC. rewrite tmap2_tmap, tmap_tmap2. symmetry.
  apply (tmap2_ext_Forall zero_one zero_one); [|done|done].
  intros. by apply xmul_zero_one.
Qed.

(** The running product of [alltrue] against the running conjunction. *)
Lemma alltrue_loop rho conds Cs acc P :
  mapM (eval rho) conds = Some Cs ->
  Forall (tForall zero_one) Cs ->
  eval rho acc = Some P ->
  tForall zero_one P ->
  tmap truthy <$> eval rho (fold_left alltrue_step conds acc)
  = fold_left (fun m c => m ≫= fun m => tmap2 andb m c)
              (map (tmap truthy) Cs) (Some (tmap truthy P)).
Proof.
  revert Cs acc P.
  induction conds as [|c conds IH]; intros Cs acc P HCs HF HP H01.
  - apply mapM_Some, Forall2_nil_inv_l in HCs as ->. cbn [fold_left map].
    by rewrite HP.
  - apply mapM_Some, Forall2_cons_inv_l in HCs as (C & Cs' & HC & HCs & ->).
    apply mapM_Some in HCs. apply Forall_cons in HF as [HC01 HF].
    cbn [fold_left map mbind option_bind].
    rewrite truthy_product by done.
    pose proof (eval_alltrue_step rho acc c P C HP HC HC01) as Hstep.
    destruct (tmap2 xmul P C) as [Q|] eqn:HQ.
    + apply IH; [done|done|done|].
      apply (tmap2_Forall zero_one zero_one zero_one xmul P C);
        [|done|done|done].
      intros. by apply xmul_zero_one.
    + cbn [fmap option_fmap option_map]. rewrite and_loop_none.
      by rewrite eval_alltrue_none.
Qed.

(** The product built by [alltrue] is true exactly where the conjunction
    of the conditions is. *)
Lemma eval_alltrue rho conds Cs :
  mapM (eval rho) conds = Some Cs ->
  Forall (tForall zero_one) Cs ->
  tmap truthy <$> eval rho (alltrue conds)
  = all_conditions (map (tmap truthy) Cs).
Proof.
  intros HCs H01. unfold alltrue, all_conditions.
  pose proof (alltrue_loop rho conds Cs (T_const (Fin 1)) (Scalar (Fin 1))
                HCs H01 eq_refl (or_intror eq_refl)) as Hloop.
  cbn [tmap] in Hloop. by rewrite truthy_1 in Hloop.
Qed.

(** C2.  For every log-density expression and every finite list of
    elementwise 0/1-valued conditions, [bound] (multiply the conditions,
    switch on the product) evaluates to the elementwise conditional of the
    specification: the log-density where all conditions hold and [-inf]
    where at least one is false. *)
Theorem bound_refines_spec (rho : env) (logp : texpr) (conds : list texpr)
    (L : tval) (Cs : list tval) :
  eval rho logp = Some L ->
  mapM (eval rho) conds = Some Cs ->
  Forall (tForall zero_one) Cs ->
  eval rho (bound logp conds) = bound_spec L Cs.
Proof.
  intros HL HCs H01. unfold bound, bound_spec.
  rewrite <- (eval_alltrue rho conds Cs HCs H01).
  cbn [eval]. rewrite HL.
  destruct (eval rho (alltrue conds)) as [P|]; simpl; [|done].
  apply tswitch_mask.
Qed.

Lemma truthy_of_bool b : truthy (of_bool b) = b.
Proof. destruct b; [apply truthy_1 | apply truthy_0]. Qed.

Lemma zero_one_of_bool b : zero_one (of_bool b).
Proof. destruct b; [by right | by left]. Qed.

Lemma and_loop_scalars (bs : list bool) (acc : bool) :
  fold_left (fun (m : option (tensor bool)) c =>
               m ≫= fun m => tmap2 andb m c)
            (map (fun b => Scalar b) bs) (Some (Scalar acc))
  = Some (Scalar (acc && forallb (fun b => b) bs)).
Proof.
  revert acc. induction bs as [|b bs IH]; intros acc; simpl.
  - by rewrite andb_true_r.
  - rewrite IH. by rewrite andb_assoc.
Qed.

(** [bound] under scalar conditions: one truth value masks the whole
    log-density. *)
Lemma eval_bound_scalars rho logp conds L (bs : list bool) :
  eval rho logp = Some L ->
  mapM (eval rho) conds = Some (map (fun b => Scalar (of_bool b)) bs) ->
  eval rho (bound logp conds)
  = Some (tmap (mask_entry (forallb (fun b => b) bs)) L).
Proof.
  intros HL Hc. unfold bound. cbn [eval]. rewrite HL.
  assert (tmap truthy <$> eval rho (alltrue conds)
          = Some (Scalar (forallb (fun b => b) bs))) as Hmask.
  { rewrite (eval_alltrue rho conds _ Hc).
    - unfold all_conditions. rewrite map_map.
      rewrite (map_ext _ (fun b => Scalar b)).
      + by rewrite and_loop_scalars.
      + intros b. simpl. by rewrite truthy_of_bool.
    - apply Forall_fmap, Forall_true. intros b. apply zero_one_of_bool. }
  destruct (eval rho (alltrue conds)) as [P|]; [|done].
  injection Hmask as Hmask. rewrite tswitch_mask, Hmask. by destruct L.
Qed.

(** ** [Uniform.logp] *)

(** C6.  For every Uniform distribution, [logp] is
    [log(1 / (upper - lower))]: its value is determined by the values of
    [upper] and [lower] alone, rebinding the variable [x] to any other data
    leaves it unchanged, and for [lower < upper] it is the same finite
    number whether the data lie inside or outside [[lower, upper]]. *)
Theorem Uniform_logp_ignores_x (self : Node Distribution)
    (x lower upper : handle) :
  let u := mkDistribution self (IsUniform x lower upper) in
  logp u = T_log (T_div (T_const (Fin 1))
                        (T_sub (T_var upper) (T_var lower)))
  /\ (forall rho rho' : env,
        rho (hid upper) = rho' (hid upper) ->
        rho (hid lower) = rho' (hid lower) ->
        eval rho (logp u) = eval rho' (logp u))
  /\ (forall (rho : env) (data : tval),
        hid x <> hid upper -> hid x <> hid lower ->
        eval (env_set rho x data) (logp u) = eval rho (logp u))
  /\ (forall (rho : env) (lo up : R),
        rho (hid upper) = Some (Scalar (Fin up)) ->
        rho (hid lower) = Some (Scalar (Fin lo)) ->
        (lo < up)%R ->
        eval rho (logp u) = Some (Scalar (Fin (ln (1 / (up - lo)))))).
Proof.
  intros u. split; [done|]. split; [|split].
  - intros rho rho' Hu Hl. simpl. by rewrite Hu, Hl.
  - intros rho data Hu Hl. simpl. unfold env_set.
    destruct (Nat.eqb_spec (hid upper) (hid x)) as [E|_]; [congruence|].
    destruct (Nat.eqb_spec (hid lower) (hid x)) as [E|_]; [congruence|].
    done.
  - intros rho lo up Hu Hl Hlt. cbn [logp u eval]. rewrite Hu, Hl.
    cbn [lift1 lift2 tmap tmap2]. rewrite xsub_fin.
    rewrite xdiv_fin by lra. rewrite xlog_fin; [done|].
    apply Rdiv_lt_0_compat; lra.
Qed.

(** ** [Mix2.logp] *)

Lemma eval_bound_none rho logp conds :
  eval rho logp = None -> eval rho (bound logp conds) = None.
Proof.
  intros HN. unfold bound. cbn [eval]. rewrite HN.
  by destruct (eval rho (alltrue conds)).
Qed.

Lemma tmap2_scalar_l {A B C} (f : A -> B -> C) a v :
  tmap2 f (Scalar a) v = Some (tmap (f a) v).
Proof. by destruct v. Qed.

Lemma tmap_tmap {A B C} (g : B -> C) (f : A -> B) u :
  tmap g (tmap f u) = tmap (fun a => g (f a)) u.
Proof. destruct u; simpl; [done|]. by rewrite map_map. Qed.

(** The mixture expression before masking. *)
Lemma eval_mixture rho frac d1 d2 f L1 L2 :
  rho (hid frac) = Some (Scalar f) ->
  eval rho (logp d1) = Some L1 ->
  eval rho (logp d2) = Some L2 ->
  eval rho
    (T_log (T_add (T_mul (T_var frac) (T_exp (logp d1)))
                  (T_mul (T_sub (T_const (Fin 1)) (T_var frac))
                         (T_exp (logp d2)))))
  = Mix2_spec f L1 L2.
Proof.
  intros Hf H1 H2. cbn [eval]. rewrite Hf, H1, H2.
  cbn [lift1 lift2]. rewrite !tmap2_scalar_l. cbn [lift2 tmap].
  rewrite !tmap2_scalar_l, !tmap_tmap. unfold Mix2_spec.
  by destruct (tmap2 xadd _ _).
Qed.

(** C3.  With [frac] bound to a real and the two component log-densities
    evaluating to [L1] and [L2]: for [0 < frac < 1], [Mix2.logp] is
    [log(frac exp(L1) + (1 - frac) exp(L2))]; for [frac <= 0] or
    [frac >= 1] every entry is [-inf], whatever the components are. *)
Theorem Mix2_logp_support (self : Node Distribution) (frac : handle)
    (dist1 dist2 : Distribution) (rho : env) (f : R) (L1 L2 : tval) :
  let mix := mkDistribution self (IsMix2 frac dist1 dist2) in
  rho (hid frac) = Some (Scalar (Fin f)) ->
  eval rho (logp dist1) = Some L1 ->
  eval rho (logp dist2) = Some L2 ->
  ((0 < f < 1)%R -> eval rho (logp mix) = Mix2_spec (Fin f) L1 L2)
  /\ ((f <= 0 \/ 1 <= f)%R ->
      eval rho (logp mix)
      = tmap (fun _ => NInf) <$> Mix2_spec (Fin f) L1 L2).
Proof.
  intros mix Hf H1 H2.
  pose proof (eval_mixture rho frac dist1 dist2 (Fin f) L1 L2 Hf H1 H2)
    as Hmix.
  assert (mapM (eval rho) [T_gt (T_var frac) (T_const (Fin 0));
                           T_lt (T_var frac) (T_const (Fin 1))]
          = Some (map (fun b => Scalar (of_bool b))
                      [xltb (Fin 0) (Fin f); xltb (Fin f) (Fin 1)])) as Hc.
  { cbn. rewrite Hf. done. }
  unfold mix. cbn [logp].
  destruct (Mix2_spec (Fin f) L1 L2) as [V|] eqn:HV.
  - rewrite (eval_bound_scalars _ _ _ V _ Hmix Hc). cbn [forallb].
    rewrite andb_true_r. split.
    + intros [Hlo Hhi]. rewrite !xltb_fin_true by done. cbn [andb fmap].
      f_equal. destruct V as [a|l]; simpl; [done|]. by rewrite map_id.
    + intros Hout. cbn [fmap option_fmap option_map].
      assert (xltb (Fin 0) (Fin f) && xltb (Fin f) (Fin 1) = false) as ->.
      { destruct Hout as [Hlo|Hhi].
        - by rewrite (xltb_fin_false 0 f).
        - rewrite (xltb_fin_false f 1) by done. apply andb_false_r. }
      done.
  - rewrite eval_bound_none by done. done.
Qed.

(** ** Construction *)

Example normal_model_builds :
  value_of (normal_model w0) = Some normal_example.
Proof. reflexivity. Qed.

Lemma Normal_succeeds_iff x mu sigma w :
  succeeds (Normal x mu sigma w)
  <-> is_leaf x /\ is_leaf (default (PyNum 0) mu)
      /\ is_leaf (default (PyNum 1) sigma).
Proof.
  unfold succeeds, Normal, bind, lift, Distribution_init, fresh_id, ret.
  destruct x as [q|ox]; simpl.
  - split; [intros [a Ha]; done | intros [[] _]].
  - destruct (default (PyNum 0) mu) as [q|om]; simpl.
    + split; [intros [a Ha]; done | intros (_ & [] & _)].
    + destruct (default (PyNum 1) sigma) as [q|os]; simpl.
      * split; [intros [a Ha]; done | intros (_ & _ & [])].
      * split; [done | intros _; eauto].
Qed.

Lemma Uniform_succeeds_iff x lower upper w :
  succeeds (Uniform x lower upper w)
  <-> is_leaf x /\ is_leaf (default (PyNum 0) lower)
      /\ is_leaf (default (PyNum 1) upper).
Proof.
  unfold succeeds, Uniform, bind, lift, Distribution_init, fresh_id, ret.
  destruct x as [q|ox]; simpl.
  - split; [intros [a Ha]; done | intros [[] _]].
  - destruct (default (PyNum 0) lower) as [q|om]; simpl.
    + split; [intros [a Ha]; done | intros (_ & [] & _)].
    + destruct (default (PyNum 1) upper) as [q|os]; simpl.
      * split; [intros [a Ha]; done | intros (_ & _ & [])].
      * split; [done | intros _; eauto].
Qed.

Lemma Normal_raises_or_succeeds x mu sigma w :
  raises_AttributeError (Normal x mu sigma w) \/ succeeds (Normal x mu sigma w).
Proof.
  unfold raises_AttributeError, succeeds, Normal, bind, lift,
    Distribution_init, fresh_id, ret.
  destruct x as [q|ox]; simpl; [left; eauto|].
  destruct (default (PyNum 0) mu) as [q|om]; simpl; [left; eauto|].
  destruct (default (PyNum 1) sigma) as [q|os]; simpl; [left; eauto|].
  right; eauto.
Qed.

Lemma Uniform_raises_or_succeeds x lower upper w :
  raises_AttributeError (Uniform x lower upper w)
  \/ succeeds (Uniform x lower upper w).
Proof.
  unfold raises_AttributeError, succeeds, Uniform, bind, lift,
    Distribution_init, fresh_id, ret.
  destruct x as [q|ox]; simpl; [left; eauto|].
  destruct (default (PyNum 0) lower) as [q|om]; simpl; [left; eauto|].
  destruct (default (PyNum 1) upper) as [q|os]; simpl; [left; eauto|].
  right; eauto.
Qed.

Lemma not_both {A} (r : result A * world) :
  raises_AttributeError r -> succeeds r -> False.
Proof. intros [attr H1] [a H2]. congruence. Qed.

(** C10, as the code has it.  Constructing [Normal] or [Uniform] while
    relying on a numeric default for any parameter argument always raises
    an attribute error; construction succeeds exactly when [x] and both
    parameter arguments are objects carrying [name] and [tvar] -- a
    [Parameter], or a [Variable] just as well, since no type is checked. *)
Theorem numeric_defaults_raise (x : pyobj) (a b : option pyobj) (w : world) :
  ((a = None \/ b = None) ->
     raises_AttributeError (Normal x a b w)
     /\ raises_AttributeError (Uniform x a b w))
  /\ (succeeds (Normal x a b w)
      <-> exists ox oa ob,
            x = PyLeaf ox /\ a = Some (PyLeaf oa) /\ b = Some (PyLeaf ob))
  /\ (succeeds (Uniform x a b w)
      <-> exists ox oa ob,
            x = PyLeaf ox /\ a = Some (PyLeaf oa) /\ b = Some (PyLeaf ob)).
Proof.
  assert (forall (n : Q) (o : option pyobj),
            is_leaf (default (PyNum n) o) <-> exists l, o = Some (PyLeaf l))
    as Hdef.
  { intros n [[q|l]|]; simpl; split; try done; try (intros [l' [=]]); eauto. }
  assert (is_leaf x <-> exists ox, x = PyLeaf ox) as Hx.
  { destruct x; simpl; split; try done; try (intros [l' [=]]); eauto. }
  split; [|split].
  - intros Hnone. split.
    + destruct (Normal_raises_or_succeeds x a b w) as [H|H]; [done|].
      apply Normal_succeeds_iff in H as (_ & Ha & Hb).
      apply Hdef in Ha as [la ->]. apply Hdef in Hb as [lb ->].
      by destruct Hnone.
    + destruct (Uniform_raises_or_succeeds x a b w) as [H|H]; [done|].
      apply Uniform_succeeds_iff in H as (_ & Ha & Hb).
      apply Hdef in Ha as [la ->]. apply Hdef in Hb as [lb ->].
      by destruct Hnone.
  - rewrite Normal_succeeds_iff, Hx, !Hdef. naive_solver.
  - rewrite Uniform_succeeds_iff, Hx, !Hdef. naive_solver.
Qed.

(** The claim as stated fails: [Normal] accepts [Variable] objects in the
    parameter positions. *)
Lemma parameter_arguments_need_not_be_Parameters :
  ~ (forall x mu sigma w,
       succeeds (Normal x (Some mu) (Some sigma) w) ->
       is_Parameter mu /\ is_Parameter sigma).
Proof.
  intros H.
  destruct (H (leafV (mkVariable 0 "x" "x" (mkHandle 1 "x" 1)))
              (leafV (mkVariable 2 "m" "m" (mkHandle 3 "m" 1)))
              (leafV (mkVariable 4 "s" "s" (mkHandle 5 "s" 1)))
              (mkWorld 6 ∅ [])) as [[] _].
  eexists. reflexivity.
Qed.

Example normal_of_variables_builds :
  is_Some (value_of (normal_of_variables w0)).
Proof. eexists. reflexivity. Qed.

(** ** Instances at the example models *)

Example uniform_model_builds :
  value_of (uniform_model w0) = Some uniform_example.
Proof. reflexivity. Qed.

Lemma collect_dedup_first_seen_witness :
  get_params normal_example = first_seen (dfs_params normal_example)
  /\ NoDup (map oid (get_vars normal_example)).
Proof.
  split.
  - apply (collect_dedup_first_seen normal_example).
  - apply (collect_dedup_first_seen normal_example).
Defined.

Lemma bound_refines_spec_witness :
  eval (fun _ => Some (Vector [Fin 1; Fin 0]))
       (bound (T_const (Fin 2)) [T_var (mkHandle 0 "c" 1); T_const (Fin 1)])
  = bound_spec (Scalar (Fin 2)) [Vector [Fin 1; Fin 0]; Scalar (Fin 1)].
Proof.
  apply bound_refines_spec.
  - reflexivity.
  - reflexivity.
  - repeat constructor; ((by left) || (by right)).
Defined.

Lemma Mix2_logp_support_witness :
  eval (mixture_env 2) (logp mixture_example)
  = tmap (fun _ => NInf)
      <$> Mix2_spec (Fin 2)
            (Scalar (xlog (xdiv (Fin 1) (xsub (Fin 1) (Fin 0)))))
            (Scalar (xlog (xdiv (Fin 1) (xsub (Fin 1) (Fin 0))))).
Proof.
  apply (Mix2_logp_support (base mixture_example) (mkHandle 9 "frac" 0)
           uniform_example uniform_example (mixture_env 2) 2
           (Scalar (xlog (xdiv (Fin 1) (xsub (Fin 1) (Fin 0)))))
           (Scalar (xlog (xdiv (Fin 1) (xsub (Fin 1) (Fin 0)))))
           eq_refl eq_refl eq_refl).
  right. lra.
Defined.

Lemma Uniform_logp_ignores_x_witness :
  eval outside_env (logp uniform_example)
  = Some (Scalar (Fin (ln (1 / (1 - 0))))).
Proof.
  apply (Uniform_logp_ignores_x (base uniform_example) _ _ _).
  - reflexivity.
  - reflexivity.
  - lra.
Defined.

Lemma numeric_defaults_raise_witness :
  raises_AttributeError
    (Normal (leafV (mkVariable 0 "x" "x" (mkHandle 1 "x" 1))) None None w0).
Proof.
  apply (numeric_defaults_raise _ None None w0). by left.
Defined.

(** ** Input validation in [fit] *)

Lemma first_missing {V} (m : gmap string V) (l : list Leaf) :
  (exists v, v ∈ l /\ m !! name v = None) ->
  exists l1 v l2,
    l = l1 ++ v :: l2
    /\ (forall u, u ∈ l1 -> is_Some (m !! name u))
    /\ m !! name v = None.
Proof.
  induction l as [|a l IH]; intros (v & Hin & Hv).
  - by apply elem_of_nil in Hin.
  - destruct (m !! name a) as [x|] eqn:Ha.
    + apply elem_of_cons in Hin as [->|Hin]; [congruence|].
      destruct IH as (l1 & v' & l2 & -> & Hl1 & Hv'); [eauto|].
      exists (a :: l1), v', l2. split; [done|]. split; [|done].
      intros u [->|Hu]%elem_of_cons; [by rewrite Ha | by apply Hl1].
    + exists [], a, l. split; [done|]. split; [|done].
      intros u Hu. by apply elem_of_nil in Hu.
Qed.

Lemma data_loop_missing data l1 v l2 :
  (forall u, u ∈ l1 -> is_Some (data !! name u)) ->
  data !! name v = None ->
  data_loop data (l1 ++ v :: l2) = Raise (missing_variable (name v)).
Proof.
  intros Hl1 Hv. induction l1 as [|a l1 IH]; simpl.
  - by rewrite Hv.
  - destruct (Hl1 a) as [x ->]; [left|]. rewrite IH; [done|].
    intros u Hu. apply Hl1. by right.
Qed.

Lemma data_loop_present data l :
  (forall u, u ∈ l -> is_Some (data !! name u)) ->
  exists data_args, data_loop data l = Ok data_args.
Proof.
  intros Hl. induction l as [|a l IH]; simpl; [eauto|].
  destruct (Hl a) as [x ->]; [left|].
  destruct IH as [args ->]; [|eauto]. intros u Hu. apply Hl. by right.
Qed.

Lemma init_loop_missing init l1 p l2 :
  (forall u, u ∈ l1 -> is_Some (init !! name u)) ->
  init !! name p = None ->
  init_loop init (l1 ++ p :: l2) = Raise (missing_initial_value (name p)).
Proof.
  intros Hl1 Hp. induction l1 as [|a l1 IH]; simpl.
  - by rewrite Hp.
  - destruct (Hl1 a) as [x ->]; [left|]. rewrite IH; [done|].
    intros u Hu. apply Hl1. by right.
Qed.

(** C7, as the code has it.  [fit] checks the variables first, then the
    parameters.  If a collected variable has no entry in [data], [fit]
    raises the missing-variable error naming the first such variable.  If
    every variable has an entry and a collected parameter has no entry in
    [init], [fit] raises the missing-initial-value error naming the first
    such parameter.  In both cases the world is left as it was (nothing was
    compiled, cached or logged) and the outcome is the same for every
    minimizer: none was run. *)
Theorem fit_validates_first
    (T_grad : texpr -> list handle -> result (list texpr))
    (Diagnostics : Type)
    (minimize : (list xreal -> option tval) ->
                (list xreal -> option (list tval)) ->
                list xreal -> result (OptimizeResult (list xreal) Diagnostics))
    (d : Distribution) (data : gmap string tval) (init : gmap string xreal)
    (w : world) :
  ((exists v, v ∈ get_vars d /\ data !! name v = None) ->
   exists l1 v l2,
     get_vars d = l1 ++ v :: l2
     /\ (forall u, u ∈ l1 -> is_Some (data !! name u))
     /\ data !! name v = None
     /\ fit T_grad Diagnostics minimize d data init w
        = (Raise (missing_variable (name v)), w))
  /\
  ((forall v, v ∈ get_vars d -> is_Some (data !! name v)) ->
   (exists p, p ∈ get_params d /\ init !! name p = None) ->
   exists l1 p l2,
     get_params d = l1 ++ p :: l2
     /\ (forall u, u ∈ l1 -> is_Some (init !! name u))
     /\ init !! name p = None
     /\ fit T_grad Diagnostics minimize d data init w
        = (Raise (missing_initial_value (name p)), w)).
Proof.
  split.
  - intros Hmiss. apply first_missing in Hmiss as (l1 & v & l2 & E & H1 & Hv).
    exists l1, v, l2. repeat split; try done.
    unfold fit, bind, lift. rewrite E, data_loop_missing; done.
  - intros Hall Hmiss.
    apply first_missing in Hmiss as (l1 & p & l2 & E & H1 & Hp).
    exists l1, p, l2. repeat split; try done.
    destruct (data_loop_present data _ Hall) as [args Hargs].
    unfold fit, bind, lift. rewrite Hargs, E, init_loop_missing; done.
Qed.

(** The claim as stated fails: with a variable and a parameter both
    missing, the error raised is the one about the variable. *)
Lemma missing_variable_reported_first :
  ~ (forall (d : Distribution) (data : gmap string tval)
            (init : gmap string xreal) (w : world),
       (exists p, p ∈ get_params d /\ init !! name p = None) ->
       exists nm w',
         fit zero_grad unit minimize_nothing d data init w
         = (Raise (missing_initial_value nm), w')).
Proof.
  intros H. destruct (H normal_example ∅ ∅ w0) as (nm & w' & Hfit).
  - exists (OfParameter (mkParameter 2 "mu" "mu" None None
                                     (mkHandle 3 "mu" 0))).
    split; [|done]. left.
  - discriminate Hfit.
Qed.

Lemma fit_validates_first_witness :
  exists l1 p l2,
    get_params normal_example = l1 ++ p :: l2
    /\ (forall u, u ∈ l1 -> is_Some (({["mu" := Fin 0]} : gmap string xreal)
                                      !! name u))
    /\ ({["mu" := Fin 0]} : gmap string xreal) !! name p = None
    /\ fit zero_grad unit minimize_nothing normal_example
          {["x" := Vector [Fin 0]]} {["mu" := Fin 0]} w0
       = (Raise (missing_initial_value (name p)), w0).
Proof.
  apply (fit_validates_first zero_grad unit minimize_nothing
           normal_example {["x" := Vector [Fin 0]]} {["mu" := Fin 0]} w0).
  - intros v [->|Hv]%elem_of_cons; [by eexists|]. by apply elem_of_nil in Hv.
  - exists (OfParameter (mkParameter 4 "sigma" "sigma" None None
                                     (mkHandle 5 "sigma" 0))).
    split; [|done]. right. left.
Defined.

Example fit_missing_sigma :
  fit zero_grad unit minimize_nothing normal_example
      {["x" := Vector [Fin 0]]} {["mu" := Fin 0]} w0
  = (Raise (missing_initial_value "sigma"), w0).
Proof. reflexivity. Qed.

(** ** The compilation cache *)

Lemma status_store_same {A} (s : slot A) i res w d :
  (forall r m, slot_get s (slot_set s r m) = Some r) ->
  i = did (base d) -> status s (store s i res w) d = Some res.
Proof.
  intros Hlaw ->. unfold status, store. cbn [cache].
  rewrite lookup_insert_eq. cbn. apply Hlaw.
Qed.

Lemma status_store_other_key {A B} (s : slot A) (s' : slot B) i res w d :
  i <> did (base d) -> status s' (store s i res w) d = status s' w d.
Proof.
  intros Hne. unfold status, store. cbn [cache].
  by rewrite lookup_insert_ne.
Qed.

Lemma status_store_other_slot {A B} (s : slot A) (s' : slot B) i res w d :
  (forall r m, slot_get s' (slot_set s r m) = slot_get s' m) ->
  slot_get s' empty_memo = None ->
  status s' (store s i res w) d = status s' w d.
Proof.
  intros Hlaw Hempty. destruct (decide (i = did (base d))) as [->|Hne];
    [|by apply status_store_other_key].
  unfold status, store. cbn [cache]. rewrite lookup_insert_eq. cbn.
  rewrite Hlaw. by destruct (cache w !! did (base d)).
Qed.

Lemma status_logged {A} (s : slot A) msg w d :
  status s (logged msg w) d = status s w d.
Proof. done. Qed.

Lemma count_log_store {A} (s : slot A) i res w msg :
  count_log msg (store s i res w) = count_log msg w.
Proof. done. Qed.

Lemma count_log_logged msg m w :
  count_log msg (logged m w)
  = count_log msg w + (if string_dec m msg then 1 else 0).
Proof.
  unfold count_log, logged. cbn [log]. rewrite count_occ_app. simpl.
  by destruct (string_dec m msg).
Qed.

Lemma memoize_hit {A} (s : slot A) func d w res :
  cached s w d res -> memoize s func d w = (Ok res, w).
Proof. unfold cached, status, memoize. by intros ->. Qed.

Section Cache.

Variable T_grad : texpr -> list handle -> result (list texpr).
Variable Diagnostics : Type.
Variable minimize :
  (list xreal -> option tval) ->
  (list xreal -> option (list tval)) ->
  list xreal -> result (OptimizeResult (list xreal) Diagnostics).

(** What a call of [logp_compiled] does, by the state of the cache: a kept
    callable is returned; otherwise the body logs and compiles, and the
    callable is kept when there is one. *)
Lemma logp_compiled_cases d w :
  logp_compiled d w
  = match status logp_slot w d with
    | Some f => (Ok f, w)
    | None =>
        match objective d with
        | Ok f => (Ok f, store logp_slot (did (base d)) f (logged msg_logp w))
        | Raise e => (Raise e, logged msg_logp w)
        end
    end.
Proof.
  unfold logp_compiled, memoize, status, compile_logp, objective.
  destruct (cache w !! did (base d) ≫= slot_get logp_slot); [done|].
  unfold bind, logging_info, lift. cbn [fst snd].
  by destruct (function _ _).
Qed.

Lemma grad_compiled_cases d w :
  grad_compiled T_grad d w
  = match status grad_slot w d with
    | Some g => (Ok g, w)
    | None =>
        match gradient T_grad d with
        | Ok g => (Ok g, store grad_slot (did (base d)) g (logged msg_grad w))
        | Raise e => (Raise e, logged msg_grad w)
        end
    end.
Proof.
  unfold grad_compiled, memoize, status, compile_grad, gradient.
  destruct (cache w !! did (base d) ≫= slot_get grad_slot); [done|].
  unfold bind, logging_info, lift. cbn [fst snd].
  destruct (T_grad _ _); [|done]. by destruct (function_list _ _).
Qed.

(** The effect of each method on the kept objective and on the number of
    times its compilation was logged. *)
Lemma logp_compiled_effect d w :
  let w' := snd (logp_compiled d w) in
  match status logp_slot w d with
  | Some f =>
      w' = w
  | None =>
      status logp_slot w' d = kept (objective d)
      /\ count_log msg_logp w' = S (count_log msg_logp w)
  end
  /\ status grad_slot w' d = status grad_slot w d
  /\ count_log msg_grad w' = count_log msg_grad w.
Proof.
  rewrite logp_compiled_cases.
  destruct (status logp_slot w d) as [f|] eqn:Hs; cbn [snd]; [done|].
  destruct (objective d) as [f|e]; cbn [snd kept].
  - rewrite status_store_same, count_log_store, count_log_logged by done.
    rewrite status_store_other_slot, status_logged by done.
    rewrite count_log_store, count_log_logged.
    destruct (string_dec msg_logp msg_logp); [|done].
    destruct (string_dec msg_logp msg_grad) as [E|_]; [discriminate E|].
    split; [split; [done|lia] | split; [done|lia]].
  - rewrite !status_logged, !count_log_logged.
    destruct (string_dec msg_logp msg_logp); [|done].
    destruct (string_dec msg_logp msg_grad) as [E|_]; [discriminate E|].
    split; [split; [done|lia] | split; [done|lia]].
Qed.

Lemma grad_compiled_effect d w :
  let w' := snd (grad_compiled T_grad d w) in
  match status grad_slot w d with
  | Some g =>
      w' = w
  | None =>
      status grad_slot w' d = kept (gradient T_grad d)
      /\ count_log msg_grad w' = S (count_log msg_grad w)
  end
  /\ status logp_slot w' d = status logp_slot w d
  /\ count_log msg_logp w' = count_log msg_logp w.
Proof.
  rewrite grad_compiled_cases.
  destruct (status grad_slot w d) as [g|] eqn:Hs; cbn [snd]; [done|].
  destruct (gradient T_grad d) as [g|e]; cbn [snd kept].
  - rewrite status_store_same, count_log_store, count_log_logged by done.
    rewrite status_store_other_slot, status_logged by done.
    rewrite count_log_store, count_log_logged.
    destruct (string_dec msg_grad msg_grad); [|done].
    destruct (string_dec msg_grad msg_logp) as [E|_]; [discriminate E|].
    split; [split; [done|lia] | split; [done|lia]].
  - rewrite !status_logged, !count_log_logged.
    destruct (string_dec msg_grad msg_grad); [|done].
    destruct (string_dec msg_grad msg_logp) as [E|_]; [discriminate E|].
    split; [split; [done|lia] | split; [done|lia]].
Qed.

(** [fit] stops in validation, leaving the world alone, or at the first
    memoised method that raises, or runs both and logs the start of the
    minimisation. *)
Lemma fit_world d data init w :
  let w1 := snd (logp_compiled d w) in
  let w2 := snd (grad_compiled T_grad d w1) in
  snd (fit T_grad Diagnostics minimize d data init w) = w
  \/ snd (fit T_grad Diagnostics minimize d data init w) = w1
  \/ snd (fit T_grad Diagnostics minimize d data init w) = w2
     /\ (forall f, fst (logp_compiled d w) <> Raise f)
  \/ snd (fit T_grad Diagnostics minimize d data init w)
     = logged msg_minimize w2
     /\ (forall f, fst (logp_compiled d w) <> Raise f).
Proof.
  cbn zeta. unfold fit, bind, lift, logging_info, ret.
  destruct (data_loop data (get_vars d)); [|by left].
  destruct (init_loop init (get_params d)); [|by left]. right.
  destruct (logp_compiled d w) as [[f|e] w1]; cbn [fst snd]; [|by left].
  right.
  destruct (grad_compiled T_grad d w1) as [[g|e] w2]; cbn [fst snd];
    [|by left].
  right. split; [|done]. by destruct (minimize _ _ _).
Qed.

Lemma count_log_minimize msg w :
  msg <> msg_minimize ->
  count_log msg (logged msg_minimize w) = count_log msg w.
Proof.
  intros Hne. rewrite count_log_logged.
  destruct (string_dec msg_minimize msg) as [E|_]; [congruence|lia].
Qed.

(** One call of any of the three methods: a kept result stays and nothing
    is compiled; with no kept result, either nothing is compiled, or one
    compilation is logged and its callable, if there is one, is kept. *)
Lemma run_call_logp d c w :
  let w' := run_call T_grad Diagnostics minimize d c w in
  match status logp_slot w d with
  | Some f =>
      status logp_slot w' d = Some f
      /\ count_log msg_logp w' = count_log msg_logp w
  | None =>
      (status logp_slot w' d = None
       /\ count_log msg_logp w' = count_log msg_logp w)
      \/ (status logp_slot w' d = kept (objective d)
          /\ count_log msg_logp w' = S (count_log msg_logp w))
  end.
Proof.
  pose proof (logp_compiled_effect d w) as HL.
  pose proof (grad_compiled_effect d w) as HG.
  pose proof (grad_compiled_effect d (snd (logp_compiled d w))) as HGL.
  cbn zeta in *. destruct c as [| |data init]; cbn [run_call].
  - destruct (status logp_slot w d) as [f|] eqn:Hs.
    + destruct HL as [-> _]. done.
    + right. apply HL.
  - destruct HG as (_ & -> & ->). destruct (status logp_slot w d); auto.
  - destruct (fit_world d data init w) as [-> | [-> | [[-> _] | [-> _]]]].
    + destruct (status logp_slot w d); auto.
    + destruct (status logp_slot w d) as [f|] eqn:Hs.
      * destruct HL as [-> _]. done.
      * right. apply HL.
    + destruct HGL as (_ & -> & ->).
      destruct (status logp_slot w d) as [f|] eqn:Hs.
      * destruct HL as [-> _]. done.
      * right. apply HL.
    + rewrite status_logged, count_log_minimize by done.
      destruct HGL as (_ & -> & ->).
      destruct (status logp_slot w d) as [f|] eqn:Hs.
      * destruct HL as [-> _]. done.
      * right. apply HL.
Qed.

Lemma run_call_grad d c w :
  let w' := run_call T_grad Diagnostics minimize d c w in
  match status grad_slot w d with
  | Some g =>
      status grad_slot w' d = Some g
      /\ count_log msg_grad w' = count_log msg_grad w
  | None =>
      (status grad_slot w' d = None
       /\ count_log msg_grad w' = count_log msg_grad w)
      \/ (status grad_slot w' d = kept (gradient T_grad d)
          /\ count_log msg_grad w' = S (count_log msg_grad w))
  end.
Proof.
  pose proof (logp_compiled_effect d w) as HL.
  pose proof (grad_compiled_effect d w) as HG.
  pose proof (grad_compiled_effect d (snd (logp_compiled d w))) as HGL.
  cbn zeta in *. destruct c as [| |data init]; cbn [run_call].
  - destruct HL as (_ & -> & ->). destruct (status grad_slot w d); auto.
  - destruct (status grad_slot w d) as [g|] eqn:Hs.
    + destruct HG as [-> _]. done.
    + right. apply HG.
  - destruct HL as (_ & HLs & HLc).
    destruct (fit_world d data init w) as [-> | [-> | [[-> _] | [-> _]]]].
    + destruct (status grad_slot w d); auto.
    + rewrite HLs, HLc. destruct (status grad_slot w d); auto.
    + rewrite HLs, HLc in HGL.
      destruct (status grad_slot w d) as [g|] eqn:Hs.
      * destruct HGL as [-> _]. by rewrite HLs, HLc.
      * right. apply HGL.
    + rewrite status_logged, count_log_minimize by done.
      rewrite HLs, HLc in HGL.
      destruct (status grad_slot w d) as [g|] eqn:Hs.
      * destruct HGL as [-> _]. by rewrite HLs, HLc.
      * right. apply HGL.
Qed.

(** Any sequence of calls on one instance: a kept result stays and nothing
    more is compiled; and when the compilation succeeds it is logged at
    most once. *)
Lemma run_calls_logp d cs w :
  let w' := run_calls T_grad Diagnostics minimize d cs w in
  (forall f, status logp_slot w d = Some f ->
     status logp_slot w' d = Some f
     /\ count_log msg_logp w' = count_log msg_logp w)
  /\ (forall f, objective d = Ok f ->
        count_log msg_logp w' <= S (count_log msg_logp w)).
Proof.
  revert w. induction cs as [|c cs IH]; intros w; cbn [run_calls fold_left].
  - split; [done|]. intros; lia.
  - pose proof (run_call_logp d c w) as Hc. cbn zeta in Hc.
    specialize (IH (run_call T_grad Diagnostics minimize d c w)).
    unfold run_calls in IH. cbn zeta in IH. destruct IH as [IH1 IH2].
    destruct (status logp_slot w d) as [f|] eqn:Hs.
    + destruct Hc as [Hs' Hn]. destruct (IH1 f Hs') as [-> ->].
      split; [|intros; lia]. intros f' [= <-]. done.
    + split; [done|]. intros f Hf.
      destruct Hc as [[_ Hn]|[Hs' Hn]].
      * specialize (IH2 f Hf). lia.
      * rewrite Hf in Hs'. destruct (IH1 f Hs') as [_ ->]. lia.
Qed.

Lemma run_calls_grad d cs w :
  let w' := run_calls T_grad Diagnostics minimize d cs w in
  (forall g, status grad_slot w d = Some g ->
     status grad_slot w' d = Some g
     /\ count_log msg_grad w' = count_log msg_grad w)
  /\ (forall g, gradient T_grad d = Ok g ->
        count_log msg_grad w' <= S (count_log msg_grad w)).
Proof.
  revert w. induction cs as [|c cs IH]; intros w; cbn [run_calls fold_left].
  - split; [done|]. intros; lia.
  - pose proof (run_call_grad d c w) as Hc. cbn zeta in Hc.
    specialize (IH (run_call T_grad Diagnostics minimize d c w)).
    unfold run_calls in IH. cbn zeta in IH. destruct IH as [IH1 IH2].
    destruct (status grad_slot w d) as [g|] eqn:Hs.
    + destruct Hc as [Hs' Hn]. destruct (IH1 g Hs') as [-> ->].
      split; [|intros; lia]. intros g' [= <-]. done.
    + split; [done|]. intros g Hg.
      destruct Hc as [[_ Hn]|[Hs' Hn]].
      * specialize (IH2 g Hg). lia.
      * rewrite Hg in Hs'. destruct (IH1 g Hs') as [_ ->]. lia.
Qed.

(** A compilation that raises keeps nothing, so that every further call
    compiles, and logs, again. *)
Lemma failed_logp_repeats d e n w :
  objective d = Raise e ->
  status logp_slot w d = None ->
  let w' := run_calls T_grad Diagnostics minimize d (replicate n CallLogp) w in
  status logp_slot w' d = None
  /\ count_log msg_logp w' = count_log msg_logp w + n.
Proof.
  intros He. revert w. induction n as [|n IH]; intros w Hs;
    cbn [replicate run_calls fold_left].
  - split; [done|lia].
  - pose proof (logp_compiled_effect d w) as HL. cbn zeta in HL.
    rewrite Hs, He in HL. destruct HL as [[Hs' Hn] _].
    destruct (IH _ Hs') as [IH1 IH2]. cbn zeta in *. cbn [run_call].
    unfold run_calls in *. split; [done|]. rewrite IH2, Hn. lia.
Qed.

(** Calls on other objects leave what is kept for [d] in place. *)
Lemma status_same_key {A} (s : slot A) w d d' :
  did (base d') = did (base d) -> status s w d' = status s w d.
Proof. unfold status. by intros ->. Qed.

Lemma run_call_keeps_logp d d' c w f :
  status logp_slot w d = Some f ->
  status logp_slot (run_call T_grad Diagnostics minimize d' c w) d = Some f.
Proof.
  intros Hs. destruct (decide (did (base d') = did (base d))) as [E|Hne].
  - pose proof (run_call_logp d' c w) as Hc. cbn zeta in Hc.
    rewrite !(status_same_key _ _ d d' E) in Hc. rewrite Hs in Hc.
    apply Hc.
  - assert (forall w1, status logp_slot w1 d = Some f ->
              status logp_slot (snd (logp_compiled d' w1)) d = Some f) as HL.
    { intros w1 H1. rewrite logp_compiled_cases.
      destruct (status logp_slot w1 d'); [done|].
      destruct (objective d'); cbn [snd]; [|done].
      by rewrite status_store_other_key, status_logged. }
    assert (forall w1, status logp_slot w1 d = Some f ->
              status logp_slot (snd (grad_compiled T_grad d' w1)) d = Some f)
      as HG.
    { intros w1 H1. rewrite grad_compiled_cases.
      destruct (status grad_slot w1 d'); [done|].
      destruct (gradient T_grad d'); cbn [snd]; [|done].
      by rewrite status_store_other_key, status_logged. }
    destruct c as [| |data init]; cbn [run_call]; [by apply HL|by apply HG|].
    destruct (fit_world d' data init w) as [-> | [-> | [[-> _] | [-> _]]]];
      [done|by apply HL|by apply HG, HL|].
    rewrite status_logged. by apply HG, HL.
Qed.

Lemma run_call_keeps_grad d d' c w g :
  status grad_slot w d = Some g ->
  status grad_slot (run_call T_grad Diagnostics minimize d' c w) d = Some g.
Proof.
  intros Hs. destruct (decide (did (base d') = did (base d))) as [E|Hne].
  - pose proof (run_call_grad d' c w) as Hc. cbn zeta in Hc.
    rewrite !(status_same_key _ _ d d' E) in Hc. rewrite Hs in Hc.
    apply Hc.
  - assert (forall w1, status grad_slot w1 d = Some g ->
              status grad_slot (snd (logp_compiled d' w1)) d = Some g) as HL.
    { intros w1 H1. rewrite logp_compiled_cases.
      destruct (status logp_slot w1 d'); [done|].
      destruct (objective d'); cbn [snd]; [|done].
      by rewrite status_store_other_key, status_logged. }
    assert (forall w1, status grad_slot w1 d = Some g ->
              status grad_slot (snd (grad_compiled T_grad d' w1)) d = Some g)
      as HG.
    { intros w1 H1. rewrite grad_compiled_cases.
      destruct (status grad_slot w1 d'); [done|].
      destruct (gradient T_grad d'); cbn [snd]; [|done].
      by rewrite status_store_other_key, status_logged. }
    destruct c as [| |data init]; cbn [run_call]; [by apply HL|by apply HG|].
    destruct (fit_world d' data init w) as [-> | [-> | [[-> _] | [-> _]]]];
      [done|by apply HL|by apply HG, HL|].
    rewrite status_logged. by apply HG, HL.
Qed.

Lemma run_mixed_keeps d cs w :
  (forall f, status logp_slot w d = Some f ->
     status logp_slot (run_mixed T_grad Diagnostics minimize cs w) d = Some f)
  /\ (forall g, status grad_slot w d = Some g ->
       status grad_slot (run_mixed T_grad Diagnostics minimize cs w) d
       = Some g).
Proof.
  revert w. induction cs as [|[d' c] cs IH]; intros w; [done|].
  cbn [run_mixed fold_left fst snd].
  specialize (IH (run_call T_grad Diagnostics minimize d' c w)).
  unfold run_mixed in IH. destruct IH as [IH1 IH2]. split.
  - intros f Hs. by apply IH1, run_call_keeps_logp.
  - intros g Hs. by apply IH2, run_call_keeps_grad.
Qed.

End Cache.

(** C8.  For every instance: a call of [logp_compiled] (of
    [grad_compiled]) that finds no kept result logs once and compiles; the
    callable, when the compilation gives one, is returned and kept, and
    when the compilation raises, the error is raised and nothing is kept.
    A call that finds a kept result returns it and leaves the world
    untouched, and so does a call on any object with the same identity.
    In any sequence of calls of [logp_compiled], [grad_compiled] and [fit]
    on the instance a kept result stays the kept result and nothing more
    is compiled; when the compilation of the objective (of the gradient)
    succeeds it is logged at most once; when it raises, every call of
    [logp_compiled] compiles and logs again.  Calls on other instances in
    between do not disturb what is kept. *)
Theorem compiled_at_most_once
    (T_grad : texpr -> list handle -> result (list texpr))
    (Diagnostics : Type)
    (minimize : (list xreal -> option tval) ->
                (list xreal -> option (list tval)) ->
                list xreal -> result (OptimizeResult (list xreal) Diagnostics))
    (d : Distribution) :
  (forall w, status logp_slot w d = None ->
     exists w', logp_compiled d w = (objective d, w')
                /\ status logp_slot w' d = kept (objective d)
                /\ log w' = log w ++ [msg_logp])
  /\ (forall w, status grad_slot w d = None ->
       exists w', grad_compiled T_grad d w = (gradient T_grad d, w')
                  /\ status grad_slot w' d = kept (gradient T_grad d)
                  /\ log w' = log w ++ [msg_grad])
  /\ (forall d' w f, did (base d') = did (base d) ->
       cached logp_slot w d f -> logp_compiled d' w = (Ok f, w))
  /\ (forall d' w g, did (base d') = did (base d) ->
       cached grad_slot w d g -> grad_compiled T_grad d' w = (Ok g, w))
  /\ (forall cs w,
       let w' := run_calls T_grad Diagnostics minimize d cs w in
       (forall f, cached logp_slot w d f ->
          cached logp_slot w' d f
          /\ count_log msg_logp w' = count_log msg_logp w)
       /\ (forall g, cached grad_slot w d g ->
            cached grad_slot w' d g
            /\ count_log msg_grad w' = count_log msg_grad w)
       /\ (forall f, objective d = Ok f ->
            count_log msg_logp w' <= S (count_log msg_logp w))
       /\ (forall g, gradient T_grad d = Ok g ->
            count_log msg_grad w' <= S (count_log msg_grad w)))
  /\ (forall e n w,
       objective d = Raise e -> status logp_slot w d = None ->
       let w' := run_calls T_grad Diagnostics minimize d
                           (replicate n CallLogp) w in
       status logp_slot w' d = None
       /\ count_log msg_logp w' = count_log msg_logp w + n)
  /\ (forall (cs : list (Distribution * call)) w,
       let w' := run_mixed T_grad Diagnostics minimize cs w in
       (forall f, cached logp_slot w d f -> cached logp_slot w' d f)
       /\ (forall g, cached grad_slot w d g -> cached grad_slot w' d g)).
Proof.
  split; [|split; [|split; [|split; [|split; [|split]]]]].
  - intros w Hs. rewrite logp_compiled_cases, Hs.
    destruct (objective d) as [f|e]; eexists; (split; [done|]);
      (split; [|done]); cbn [kept]; [|done].
    by apply status_store_same.
  - intros w Hs. rewrite grad_compiled_cases, Hs.
    destruct (gradient T_grad d) as [g|e]; eexists; (split; [done|]);
      (split; [|done]); cbn [kept]; [|done].
    by apply status_store_same.
  - intros d' w f Hid Hc. apply memoize_hit.
    unfold cached, status in *. by rewrite Hid.
  - intros d' w g Hid Hc. apply memoize_hit.
    unfold cached, status in *. by rewrite Hid.
  - intros cs w w'.
    destruct (run_calls_logp T_grad Diagnostics minimize d cs w) as [H1 H2].
    destruct (run_calls_grad T_grad Diagnostics minimize d cs w) as [H3 H4].
    done.
  - intros e n w He Hs.
    apply (failed_logp_repeats T_grad Diagnostics minimize d e n w He Hs).
  - intros cs w w'.
    apply (run_mixed_keeps T_grad Diagnostics minimize d cs w).
Qed.

(** The claim as stated fails: the objective of a lone [Uniform] does not
    compile ([x] is collected as an input, and the log-density does not
    mention it), nothing is kept, and a second call compiles again. *)
Lemma failed_compilation_is_repeated :
  fst (logp_compiled uniform_example w0) = Raise UnusedInputError
  /\ log (run_calls zero_grad unit minimize_nothing uniform_example
            [CallLogp; CallLogp] w0)
     = [msg_logp; msg_logp]
  /\ ~ (count_log msg_logp
          (run_calls zero_grad unit minimize_nothing uniform_example
             [CallLogp; CallLogp] w0)
        <= S (count_log msg_logp w0)).
Proof.
  split; [reflexivity|]. split; [reflexivity|].
  vm_compute. lia.
Qed.

(** Two fits in a row on one instance, from the initial world: each
    compilation is logged once, the minimisation twice. *)
Example fit_twice_compiles_once :
  log (run_calls zero_grad unit minimize_nothing normal_example
         [CallFit {["x" := Vector [Fin 0]]} {["mu" := Fin 0; "sigma" := Fin 1]};
          CallFit {["x" := Vector [Fin 0]]} {["mu" := Fin 0; "sigma" := Fin 1]}]
         w0)
  = [msg_logp; msg_grad; msg_minimize; msg_minimize].
Proof. reflexivity. Qed.

Lemma compiled_at_most_once_witness :
  exists w', logp_compiled normal_example w0 = (objective normal_example, w')
             /\ status logp_slot w' normal_example
                = kept (objective normal_example)
             /\ log w' = log w0 ++ [msg_logp].
Proof.
  apply (compiled_at_most_once zero_grad unit minimize_nothing
           normal_example).
  reflexivity.
Defined.

(** ** Parameter bounds *)

Lemma forget_bounds_oid o : oid (forget_bounds o) = oid o.
Proof. by destruct o. Qed.

Lemma forget_bounds_name o : name (forget_bounds o) = name o.
Proof. by destruct o. Qed.

Lemma forget_bounds_tvar o : tvar (forget_bounds o) = tvar o.
Proof. by destruct o. Qed.

Lemma first_seen_from_forget seen l :
  first_seen_from seen (map forget_bounds l)
  = map forget_bounds (first_seen_from seen l).
Proof.
  revert seen. induction l as [|o l IH]; intros seen; simpl; [done|].
  rewrite forget_bounds_oid. case_decide; simpl; by rewrite IH.
Qed.

Lemma unique_forget l :
  unique (map forget_bounds l) = map forget_bounds (unique l).
Proof. rewrite !unique_first_seen. apply first_seen_from_forget. Qed.

Lemma od_values_map {V W} (f : V -> W) od :
  od_values (od_map f od) = map f (od_values od).
Proof. unfold od_values, od_map. rewrite !map_map. done. Qed.

Lemma flat_map_forget (g : Distribution -> list Leaf)
    (cs : OD Distribution) :
  Forall (fun kc => g (forget (snd kc)) = map forget_bounds (g (snd kc))) cs ->
  flat_map (fun kc => g (snd kc))
           (map (fun kc => (fst kc, forget (snd kc))) cs)
  = map forget_bounds (flat_map (fun kc => g (snd kc)) cs).
Proof.
  induction 1 as [|kc cs Hkc _ IH]; simpl; [done|].
  by rewrite map_app, Hkc, IH.
Qed.

Lemma get_vars_forget d :
  get_vars (forget d) = map forget_bounds (get_vars d).
Proof.
  induction d as [self cls IH _] using Distribution_tree_ind.
  cbn [forget get_vars self_var self_dist].
  rewrite od_values_map, flat_map_forget by done.
  by rewrite <- map_app, unique_forget.
Qed.

Lemma get_params_forget d :
  get_params (forget d) = map forget_bounds (get_params d).
Proof.
  induction d as [self cls IH _] using Distribution_tree_ind.
  cbn [forget get_params self_param self_dist].
  rewrite od_values_map, flat_map_forget by done.
  by rewrite <- map_app, unique_forget.
Qed.

Lemma logp_forget d : logp (forget d) = logp d.
Proof.
  induction d as [self cls _ IH] using Distribution_tree_ind.
  destruct cls as [x lower upper|x mu sigma|frac dist1 dist2]; [done..|].
  destruct IH as [IH1 IH2]. cbn [forget logp]. by rewrite IH1, IH2.
Qed.

Lemma did_forget d : did (base (forget d)) = did (base d).
Proof. by destruct d. Qed.

Lemma _get_vars_pars_forget d : _get_vars_pars (forget d) = _get_vars_pars d.
Proof.
  unfold _get_vars_pars. rewrite get_vars_forget, get_params_forget.
  rewrite !map_map.
  f_equal; apply map_ext; intros o; apply forget_bounds_tvar.
Qed.

Lemma data_loop_forget data l :
  data_loop data (map forget_bounds l) = data_loop data l.
Proof.
  induction l as [|o l IH]; simpl; [done|].
  by rewrite forget_bounds_name, IH.
Qed.

Lemma init_loop_forget init l :
  init_loop init (map forget_bounds l) = init_loop init l.
Proof.
  induction l as [|o l IH]; simpl; [done|].
  by rewrite forget_bounds_name, IH.
Qed.

Lemma name_results_forget l xs :
  name_results (map forget_bounds l) xs = name_results l xs.
Proof.
  unfold name_results. generalize (∅ : gmap string xreal).
  revert xs. induction l as [|o l IH]; intros xs acc; simpl; [done|].
  destruct xs as [|x xs]; simpl; [done|].
  by rewrite forget_bounds_name, IH.
Qed.

Section Bounds.

Variable T_grad : texpr -> list handle -> result (list texpr).
Variable Diagnostics : Type.
Variable minimize :
  (list xreal -> option tval) ->
  (list xreal -> option (list tval)) ->
  list xreal -> result (OptimizeResult (list xreal) Diagnostics).

Lemma logp_compiled_forget d w :
  logp_compiled (forget d) w = logp_compiled d w.
Proof.
  unfold logp_compiled, memoize, compile_logp.
  by rewrite did_forget, _get_vars_pars_forget, logp_forget.
Qed.

Lemma grad_compiled_forget d w :
  grad_compiled T_grad (forget d) w = grad_compiled T_grad d w.
Proof.
  unfold grad_compiled, memoize, compile_grad.
  by rewrite did_forget, _get_vars_pars_forget, logp_forget.
Qed.

Lemma fit_forget d data init w :
  fit T_grad Diagnostics minimize (forget d) data init w
  = fit T_grad Diagnostics minimize d data init w.
Proof.
  unfold fit, bind.
  rewrite get_vars_forget, get_params_forget.
  unfold lift. rewrite data_loop_forget, init_loop_forget.
  destruct (data_loop data (get_vars d)); [|done].
  destruct (init_loop init (get_params d)); [|done].
  rewrite logp_compiled_forget.
  destruct (logp_compiled d w) as [[f|e] w1]; [|done].
  rewrite grad_compiled_forget.
  destruct (grad_compiled T_grad d w1) as [[g|e] w2]; [|done].
  destruct (logging_info msg_minimize w2) as [[u|e] w3]; [|done].
  destruct (minimize _ _ _) as [r|e]; [|done].
  unfold ret. by rewrite name_results_forget.
Qed.

End Bounds.

(** C9.  The [enforce_lower]/[enforce_upper] arguments do not change what
    [_add_param] returns, and the bounds given to [par] change nothing
    but the two fields of the created parameter.  For two models that
    differ only in the [lower]/[upper] fields of their parameters, the
    log-density expression, the compiled objective and gradient (and the
    worlds they leave) and the outcome of [fit] are identical. *)
Theorem bounds_never_read
    (T_grad : texpr -> list handle -> result (list texpr))
    (Diagnostics : Type)
    (minimize : (list xreal -> option tval) ->
                (list xreal -> option (list tval)) ->
                list xreal -> result (OptimizeResult (list xreal) Diagnostics))
    (d1 d2 : Distribution) :
  (forall (self : Node Distribution) (param : pyobj)
          (el eu el' eu' : option Q),
     _add_param self param el eu = _add_param self param el' eu')
  /\ (forall nm label lo up lo' up' w,
       snd (par nm label lo up w) = snd (par nm label lo' up' w)
       /\ forall p p', fst (par nm label lo up w) = Ok p ->
                       fst (par nm label lo' up' w) = Ok p' ->
                       forget_bounds (OfParameter p)
                       = forget_bounds (OfParameter p'))
  /\ (same_up_to_bounds d1 d2 ->
      logp d1 = logp d2
      /\ map tvar (get_vars d1) = map tvar (get_vars d2)
      /\ map tvar (get_params d1) = map tvar (get_params d2)
      /\ (forall w, logp_compiled d1 w = logp_compiled d2 w)
      /\ (forall w, grad_compiled T_grad d1 w = grad_compiled T_grad d2 w)
      /\ (forall data init w,
            fit T_grad Diagnostics minimize d1 data init w
            = fit T_grad Diagnostics minimize d2 data init w)).
Proof.
  split; [done|]. split.
  - intros nm label lo up lo' up' w. split; [done|].
    intros p p' [= <-] [= <-]. done.
  - unfold same_up_to_bounds. intros E.
    pose proof (_get_vars_pars_forget d1) as H1.
    pose proof (_get_vars_pars_forget d2) as H2.
    rewrite E, H2 in H1. injection H1 as Hv Hp.
    split; [by rewrite <- (logp_forget d1), E, logp_forget|].
    split; [done|]. split; [done|]. split; [|split].
    + intros w. by rewrite <- (logp_compiled_forget d1), E,
        logp_compiled_forget.
    + intros w. by rewrite <- (grad_compiled_forget T_grad d1), E,
        grad_compiled_forget.
    + intros data init w.
      by rewrite <- (fit_forget T_grad Diagnostics minimize d1), E,
        fit_forget.
Qed.

Lemma bounds_never_read_witness :
  logp normal_example = logp normal_example_bounded
  /\ forall data init w,
       fit zero_grad unit minimize_nothing normal_example data init w
       = fit zero_grad unit minimize_nothing normal_example_bounded
             data init w.
Proof.
  destruct (bounds_never_read zero_grad unit minimize_nothing
              normal_example normal_example_bounded) as (_ & _ & H).
  destruct (H eq_refl) as (Hl & _ & _ & _ & _ & Hf). split; [exact Hl|exact Hf].
Defined.

(** ** Compiled objective and gradient *)

Example clash_model_builds :
  value_of (clash_model w0) = Some clash_example.
Proof. reflexivity. Qed.

(** Positional binding: with pairwise distinct inputs, the i-th input
    stands for the i-th argument. *)
Lemma bind_inputs_lookup (inputs : list handle) (args : list tval) i h :
  NoDup (map hid inputs) ->
  length args = length inputs ->
  inputs !! i = Some h ->
  bind_inputs inputs args (hid h) = args !! i.
Proof.
  revert args i. induction inputs as [|h0 inputs IH]; intros args i Hnd Hlen Hi.
  - by rewrite lookup_nil in Hi.
  - destruct args as [|a args]; [done|]. simpl in Hlen.
    apply NoDup_cons in Hnd as [Hnotin Hnd]. destruct i as [|i]; simpl in *.
    + injection Hi as ->. by rewrite Nat.eqb_refl.
    + destruct (Nat.eqb_spec (hid h) (hid h0)) as [E|_].
      * exfalso. apply Hnotin. rewrite <- E.
        apply list_elem_of_fmap_2. by eapply list_elem_of_lookup_2.
      * apply IH; [done|lia|done].
Qed.

Lemma bind_inputs_bound (inputs : list handle) (args : list tval) n i :
  NoDup (map hid inputs) ->
  length args = length inputs ->
  Forall (has_rows n) args ->
  i ∈ map hid inputs ->
  exists v, bind_inputs inputs args i = Some v /\ has_rows n v.
Proof.
  intros Hnd Hlen Hrows Hi.
  apply list_elem_of_fmap in Hi as (h & -> & Hh).
  apply list_elem_of_lookup in Hh as [k Hk].
  rewrite (bind_inputs_lookup inputs args k h) by done.
  destruct (args !! k) as [v|] eqn:Hv.
  - exists v. split; [done|]. by eapply Forall_lookup_1.
  - apply lookup_ge_None in Hv. apply lookup_lt_Some in Hk. lia.
Qed.

(** Shapes: entrywise operations keep the number of rows. *)
Lemma has_rows_tmap n f u : has_rows n u -> has_rows n (tmap f u).
Proof. destruct u; cbn [tmap has_rows]; [done|]. by rewrite length_map. Qed.

Lemma has_rows_tmap2 {C} n (f : xreal -> C -> xreal) u (v : tensor C) :
  has_rows n u ->
  match v with Scalar _ => True | Vector l => length l = n end ->
  exists r, tmap2 f u v = Some r /\ has_rows n r.
Proof.
  destruct u as [a|l1], v as [b|l2]; cbn [tmap2 has_rows]; intros Hu Hv.
  - eauto.
  - eexists. split; [done|]. cbn [has_rows]. by rewrite length_map.
  - eexists. split; [done|]. cbn [has_rows]. by rewrite length_map.
  - rewrite Hu, Hv, Nat.eqb_refl. eexists. split; [done|]. cbn [has_rows].
    rewrite length_zip_with. lia.
Qed.

Lemma has_rows_tswitch n c a b :
  has_rows n c -> has_rows n a -> has_rows n b ->
  exists r, tswitch c a b = Some r /\ has_rows n r.
Proof.
  intros Hc Ha Hb. unfold tswitch.
  assert (exists ab, tmap2 pair a b = Some ab
            /\ match ab with Scalar _ => True | Vector l => length l = n end)
    as (ab & -> & Hab).
  { destruct a as [x|l1], b as [y|l2]; cbn [tmap2 has_rows] in *.
    - eauto.
    - eexists. split; [done|]. lazy beta iota. by rewrite length_map.
    - eexists. split; [done|]. lazy beta iota. by rewrite length_map.
    - rewrite Ha, Hb, Nat.eqb_refl. eexists. split; [done|].
      lazy beta iota. rewrite length_zip_with. lia. }
  by apply has_rows_tmap2.
Qed.

(** Evaluation succeeds when every input is bound to a value that fits the
    dataset. *)
Lemma eval_total (rho : env) n e :
  (forall h, h ∈ inputs_of e ->
     exists v, rho (hid h) = Some v /\ has_rows n v) ->
  exists v, eval rho e = Some v /\ has_rows n v.
Proof.
  induction e; cbn [inputs_of eval]; intros Hin;
    repeat match goal with
    | IH : (forall h, h ∈ inputs_of ?a -> _) -> _ |- _ =>
        let v := fresh "v" in
        let Hv := fresh "Hv" in
        let Hr := fresh "Hr" in
        destruct IH as (v & Hv & Hr);
        [intros h0 Hh0; apply Hin; set_solver | rewrite Hv; clear Hv]
    end;
    cbn [lift1 lift2];
    try (by apply has_rows_tmap2);
    try (eexists; split; [done|]; by apply has_rows_tmap).
  - apply Hin. set_solver.
  - by eexists.
  - by apply has_rows_tswitch.
  - eexists. split; [done|]. by destruct v.
Qed.

Lemma handle_ids_tvars vs ps :
  map hid (map tvar vs ++ map tvar ps) = handle_ids (vs ++ ps).
Proof. unfold handle_ids. by rewrite !map_app, !map_map. Qed.

(** When nothing was overwritten, every input of the log-density is
    collected. *)
Lemma dfs_vars_child self cls c o :
  c ∈ od_values (self_dist self) -> o ∈ dfs_vars c ->
  o ∈ dfs_vars (mkDistribution self cls).
Proof.
  intros Hc Ho. cbn [dfs_vars]. apply elem_of_app. right.
  apply list_elem_of_In, in_flat_map.
  apply list_elem_of_fmap in Hc as (kc & -> & Hkc).
  exists kc. split; by apply list_elem_of_In.
Qed.

Lemma dfs_params_child self cls c o :
  c ∈ od_values (self_dist self) -> o ∈ dfs_params c ->
  o ∈ dfs_params (mkDistribution self cls).
Proof.
  intros Hc Ho. cbn [dfs_params]. apply elem_of_app. right.
  apply list_elem_of_In, in_flat_map.
  apply list_elem_of_fmap in Hc as (kc & -> & Hkc).
  exists kc. split; by apply list_elem_of_In.
Qed.

Lemma consistent_child self cls c :
  c ∈ od_values (self_dist self) ->
  consistent (mkDistribution self cls) -> consistent c.
Proof.
  intros Hc Hcons o o' Ho Ho'. apply Hcons.
  - apply elem_of_app in Ho as [Ho|Ho]; apply elem_of_app;
      [left; by eapply dfs_vars_child | right; by eapply dfs_params_child].
  - apply elem_of_app in Ho' as [Ho'|Ho']; apply elem_of_app;
      [left; by eapply dfs_vars_child | right; by eapply dfs_params_child].
Qed.

Lemma reachable_collected d o :
  consistent d ->
  o ∈ dfs_vars d ++ dfs_params d ->
  hid (tvar o) ∈ handle_ids (get_vars d ++ get_params d).
Proof.
  intros Hcons Ho.
  destruct (collected_reachable d) as (Hv & Hvsub & Hp & Hpsub).
  assert (exists o', o' ∈ get_vars d ++ get_params d /\ oid o' = oid o)
    as (o' & Ho' & Hid).
  { apply elem_of_app in Ho as [Ho|Ho].
    - apply Hv, list_elem_of_fmap in Ho as (o' & E & Ho').
      exists o'. split; [|done]. apply elem_of_app. by left.
    - apply Hp, list_elem_of_fmap in Ho as (o' & E & Ho').
      exists o'. split; [|done]. apply elem_of_app. by right. }
  assert (tvar o' = tvar o) as <-.
  { apply Hcons; [|done|done].
    apply elem_of_app in Ho' as [Ho'|Ho']; apply elem_of_app;
      [left; by apply Hvsub | right; by apply Hpsub]. }
  by apply (list_elem_of_fmap_2 (fun o => hid (tvar o))).
Qed.

Lemma own_collected self cls i :
  consistent (mkDistribution self cls) ->
  i ∈ handle_ids (od_values (self_var self) ++ od_values (self_param self)) ->
  i ∈ handle_ids (get_vars (mkDistribution self cls)
                  ++ get_params (mkDistribution self cls)).
Proof.
  intros Hcons Hi. apply list_elem_of_fmap in Hi as (o & -> & Ho).
  apply reachable_collected; [done|].
  apply elem_of_app in Ho as [Ho|Ho]; apply elem_of_app;
    [left|right]; cbn [dfs_vars dfs_params]; apply elem_of_app; by left.
Qed.

Lemma child_collected self cls c i :
  consistent (mkDistribution self cls) ->
  c ∈ od_values (self_dist self) ->
  i ∈ handle_ids (get_vars c ++ get_params c) ->
  i ∈ handle_ids (get_vars (mkDistribution self cls)
                  ++ get_params (mkDistribution self cls)).
Proof.
  intros Hcons Hc Hi. apply list_elem_of_fmap in Hi as (o & -> & Ho).
  apply reachable_collected; [done|].
  destruct (collected_reachable c) as (_ & Hvsub & _ & Hpsub).
  apply elem_of_app in Ho as [Ho|Ho]; apply elem_of_app;
    [left; eapply dfs_vars_child | right; eapply dfs_params_child]; eauto.
Qed.

Lemma registered_inputs_collected d :
  consistent d -> registered d -> inputs_collected d.
Proof.
  induction d as [self cls _ IH] using Distribution_tree_ind.
  intros Hcons Hreg h Hh.
  destruct cls as [x lower upper|x mu sigma|frac dist1 dist2];
    cbn [registered] in Hreg; cbn in Hh.
  - destruct Hreg as (Hx & Hl & Hu).
    apply own_collected; [done|]. set_solver.
  - destruct Hreg as (Hx & Hm & Hs).
    apply own_collected; [done|]. set_solver.
  - destruct Hreg as (Hf & H1 & H2 & Hr1 & Hr2). destruct IH as [IH1 IH2].
    assert (h = frac \/ h ∈ inputs_of (logp dist1)
            \/ h ∈ inputs_of (logp dist2)) as [->|[Hd|Hd]].
    { set_unfold in Hh. naive_solver. }
    + by apply own_collected.
    + eapply child_collected; [done|exact H1|].
      apply IH1; [by eapply consistent_child|done|done].
    + eapply child_collected; [done|exact H2|].
      apply IH2; [by eapply consistent_child|done|done].
Qed.

(** The checks of [theano.function], case by case. *)
Lemma check_inputs_Ok inputs outputs :
  check_inputs inputs outputs = Ok tt
  <-> NoDup (map hid inputs)
      /\ map hid inputs ⊆ map hid (flat_map inputs_of outputs)
      /\ map hid (flat_map inputs_of outputs) ⊆ map hid inputs.
Proof.
  unfold check_inputs. repeat case_bool_decide; cbn [negb]; naive_solver.
Qed.

Lemma check_inputs_unused inputs outputs :
  ~ NoDup (map hid inputs)
  \/ ~ map hid inputs ⊆ map hid (flat_map inputs_of outputs) ->
  check_inputs inputs outputs = Raise UnusedInputError.
Proof.
  unfold check_inputs. repeat case_bool_decide; cbn [negb]; naive_solver.
Qed.

Lemma check_inputs_missing inputs outputs :
  NoDup (map hid inputs) ->
  map hid inputs ⊆ map hid (flat_map inputs_of outputs) ->
  ~ map hid (flat_map inputs_of outputs) ⊆ map hid inputs ->
  check_inputs inputs outputs = Raise MissingInputError.
Proof.
  unfold check_inputs. repeat case_bool_decide; cbn [negb]; naive_solver.
Qed.

Lemma accepts_length inputs args :
  accepts inputs args = true -> length args = length inputs.
Proof.
  revert args. induction inputs as [|h inputs IH]; intros [|a args];
    cbn [accepts length]; try done.
  intros [_ H]%andb_true_iff. by rewrite (IH args H).
Qed.

(** The inputs and the cost handed to [theano.function] by
    [logp_compiled]. *)
Lemma cost_inputs d :
  map hid (flat_map inputs_of [T_neg (T_sum (logp d))])
  = map hid (inputs_of (logp d)).
Proof. cbn [flat_map inputs_of]. by rewrite app_nil_r. Qed.

Lemma inputs_used_spec d :
  inputs_used d
  <-> map hid (map tvar (get_vars d) ++ map tvar (get_params d))
      ⊆ map hid (flat_map inputs_of [T_neg (T_sum (logp d))]).
Proof. rewrite cost_inputs, handle_ids_tvars. done. Qed.

Lemma inputs_collected_spec d :
  inputs_collected d
  <-> map hid (flat_map inputs_of [T_neg (T_sum (logp d))])
      ⊆ map hid (map tvar (get_vars d) ++ map tvar (get_params d)).
Proof.
  rewrite cost_inputs, handle_ids_tvars. unfold inputs_collected. split.
  - intros H i (h & -> & Hh)%list_elem_of_fmap. by apply H.
  - intros H h Hh. apply H. by apply list_elem_of_fmap_2.
Qed.

(** When the objective compiles, and what it is then. *)
Lemma objective_Ok d f :
  objective d = Ok f
  <-> (NoDup (handle_ids (get_vars d ++ get_params d))
       /\ inputs_used d /\ inputs_collected d)
      /\ f = (fun args =>
                if accepts (map tvar (get_vars d) ++ map tvar (get_params d))
                           args
                then eval (bind_inputs (map tvar (get_vars d)
                                        ++ map tvar (get_params d)) args)
                          (T_neg (T_sum (logp d)))
                else None).
Proof.
  unfold objective, function. cbn [_get_vars_pars fst snd].
  rewrite inputs_used_spec, inputs_collected_spec, <- handle_ids_tvars.
  rewrite <- check_inputs_Ok.
  destruct (check_inputs _ _) as [[]|e]; split.
  - intros [= <-]. done.
  - by intros [_ ->].
  - done.
  - by intros [[=] _].
Qed.

(** Positional binding of the collected leaves: variables first, then
    parameters. *)
Lemma bind_variable vs ps (vals_v vals_p : list tval) i v :
  NoDup (handle_ids (vs ++ ps)) ->
  length vals_v = length vs ->
  length vals_p = length ps ->
  vs !! i = Some v ->
  bind_inputs (map tvar vs ++ map tvar ps) (vals_v ++ vals_p) (hid (tvar v))
  = vals_v !! i.
Proof.
  intros Hnd Hlv Hlp Hi. rewrite <- handle_ids_tvars in Hnd.
  rewrite (bind_inputs_lookup _ _ i (tvar v)); [|done| |].
  - apply lookup_app_l. apply lookup_lt_Some in Hi. lia.
  - rewrite !length_app, !length_map. lia.
  - rewrite lookup_app_l by (rewrite length_map; by eapply lookup_lt_Some).
    by rewrite list_lookup_fmap, Hi.
Qed.

Lemma bind_parameter vs ps (vals_v vals_p : list tval) j p :
  NoDup (handle_ids (vs ++ ps)) ->
  length vals_v = length vs ->
  length vals_p = length ps ->
  ps !! j = Some p ->
  bind_inputs (map tvar vs ++ map tvar ps) (vals_v ++ vals_p) (hid (tvar p))
  = vals_p !! j.
Proof.
  intros Hnd Hlv Hlp Hj. rewrite <- handle_ids_tvars in Hnd.
  rewrite (bind_inputs_lookup _ _ (length vs + j) (tvar p)); [|done| |].
  - rewrite lookup_app_r by lia. f_equal. lia.
  - rewrite !length_app, !length_map. lia.
  - rewrite lookup_app_r by (rewrite length_map; lia).
    rewrite length_map, list_lookup_fmap.
    replace (length vs + j - length vs) with j by lia. by rewrite Hj.
Qed.

(** The value of a compiled objective on accepted arguments whose vectors
    have one length. *)
Lemma objective_value d f n args :
  objective d = Ok f ->
  accepts (map tvar (get_vars d) ++ map tvar (get_params d)) args = true ->
  Forall (has_rows n) args ->
  exists L,
    eval (bind_inputs (map tvar (get_vars d) ++ map tvar (get_params d)) args)
         (logp d) = Some L
    /\ f args = Some (tmap xneg (tsum L)).
Proof.
  intros [(Hnd & _ & Hcol) ->]%objective_Ok Hacc Hrows.
  pose proof (accepts_length _ _ Hacc) as Hlen.
  destruct (eval_total
              (bind_inputs (map tvar (get_vars d) ++ map tvar (get_params d))
                           args) n (logp d)) as (L & HL & _).
  { intros h Hh. apply bind_inputs_bound; [|done|done|].
    - by rewrite handle_ids_tvars.
    - rewrite handle_ids_tvars. by apply Hcol. }
  exists L. split; [done|]. rewrite Hacc. cbn [eval]. by rewrite HL.
Qed.

(** C5, as the code has it, for a first call of each method.
    [logp_compiled()] produces a callable exactly when the collected
    variables and parameters carry pairwise distinct handles, each of them
    is an input of [logp()], and every input of [logp()] is one of them;
    it raises [UnusedInputError] when one of the first two conditions
    fails and [MissingInputError] when only the third does.  The callable
    refuses every argument list that does not give one value of the right
    number of dimensions per collected leaf, variables first, in the order
    of [get_vars()]/[get_params()]; on an accepted list whose vectors have
    one length, each collected leaf stands for the argument at its
    position and the result is the negative of the sum of the root's
    [logp()].  [grad_compiled()] raises what [T.grad] raises; given the
    expressions of [T.grad] for that negative sum with respect to the
    parameter handles, it produces a callable exactly when the same three
    conditions hold of those expressions, none of the parameter handles is
    then a variable's, and the callable has the same signature and returns
    the values of those expressions in the same binding. *)
Theorem compiled_signature
    (T_grad : texpr -> list handle -> result (list texpr))
    (d : Distribution) (w : world) :
  let vs := get_vars d in
  let ps := get_params d in
  let inputs := map tvar vs ++ map tvar ps in
  let cost := T_neg (T_sum (logp d)) in
  status logp_slot w d = None ->
  status grad_slot w d = None ->
  ((exists f w1, logp_compiled d w = (Ok f, w1))
   <-> NoDup (handle_ids (vs ++ ps)) /\ inputs_used d /\ inputs_collected d)
  /\ (~ NoDup (handle_ids (vs ++ ps)) \/ ~ inputs_used d ->
      logp_compiled d w = (Raise UnusedInputError, logged msg_logp w))
  /\ (NoDup (handle_ids (vs ++ ps)) -> inputs_used d ->
      ~ inputs_collected d ->
      logp_compiled d w = (Raise MissingInputError, logged msg_logp w))
  /\ (forall f w1, logp_compiled d w = (Ok f, w1) ->
        (forall args, accepts inputs args = false -> f args = None)
        /\ forall n vals_v vals_p,
             length vals_v = length vs ->
             accepts inputs (vals_v ++ vals_p) = true ->
             Forall (has_rows n) (vals_v ++ vals_p) ->
             let rho := bind_inputs inputs (vals_v ++ vals_p) in
             (forall i v, vs !! i = Some v ->
                          rho (hid (tvar v)) = vals_v !! i)
             /\ (forall j p, ps !! j = Some p ->
                             rho (hid (tvar p)) = vals_p !! j)
             /\ exists L,
                  eval rho (logp d) = Some L
                  /\ f (vals_v ++ vals_p) = Some (tmap xneg (tsum L)))
  /\ (forall e, T_grad cost (map tvar ps) = Raise e ->
        grad_compiled T_grad d w = (Raise e, logged msg_grad w))
  /\ (forall grads, T_grad cost (map tvar ps) = Ok grads ->
        ((exists g w2, grad_compiled T_grad d w = (Ok g, w2))
         <-> NoDup (handle_ids (vs ++ ps))
             /\ handle_ids (vs ++ ps) ⊆ map hid (flat_map inputs_of grads)
             /\ map hid (flat_map inputs_of grads) ⊆ handle_ids (vs ++ ps))
        /\ forall g w2, grad_compiled T_grad d w = (Ok g, w2) ->
             (forall v, v ∈ vs -> hid (tvar v) ∉ map hid (map tvar ps))
             /\ forall args,
                  g args = if accepts inputs args
                           then mapM (eval (bind_inputs inputs args)) grads
                           else None).
Proof.
  intros vs ps inputs cost Hsl Hsg.
  pose proof (objective_Ok d) as Hobj. fold vs ps inputs cost in Hobj.
  rewrite logp_compiled_cases, Hsl.
  rewrite grad_compiled_cases, Hsg. unfold gradient.
  cbn [_get_vars_pars fst snd]. fold vs ps inputs cost.
  split; [|split; [|split; [|split; [|split]]]].
  - destruct (objective d) as [f|e] eqn:Ho.
    + split; [intros _; by apply (Hobj f)|]. intros _. by eexists _, _.
    + split; [by intros (f & w1 & [=])|]. intros H.
      exfalso. by pose proof (proj2 (Hobj _) (conj H eq_refl)).
  - intros Hbad. unfold objective, function.
    cbn [_get_vars_pars fst snd]. fold vs ps inputs cost.
    rewrite check_inputs_unused; [done|].
    unfold inputs. rewrite handle_ids_tvars.
    destruct Hbad as [Hbad|Hbad]; [by left|right].
    intros H. apply Hbad. apply inputs_used_spec.
    by rewrite handle_ids_tvars.
  - intros Hnd Hused Hcol. unfold objective, function.
    cbn [_get_vars_pars fst snd]. fold vs ps inputs cost.
    rewrite check_inputs_missing; [done| | |].
    + unfold inputs. by rewrite handle_ids_tvars.
    + by apply inputs_used_spec.
    + intros H. apply Hcol. by apply inputs_collected_spec.
  - intros f w1 Hf. destruct (objective d) as [f'|e] eqn:Ho; [|done].
    injection Hf as -> _.
    destruct (proj1 (Hobj f) eq_refl) as [(Hnd & Hused & Hcol) Hf].
    split; [intros args Hargs; by rewrite Hf, Hargs|].
    intros n vals_v vals_p Hlv Hacc Hrows.
    pose proof (accepts_length _ _ Hacc) as Hlen.
    assert (length vals_p = length ps) as Hlp.
    { unfold inputs in Hlen. rewrite !length_app, !length_map in Hlen. lia. }
    split; [|split].
    + intros i v Hi. by apply bind_variable.
    + intros j p Hj. by apply bind_parameter.
    + by apply (objective_value d f n).
  - by intros e ->.
  - intros grads ->. unfold function_list.
    pose proof (check_inputs_Ok inputs grads) as Hchk.
    unfold inputs in Hchk at 2 3 4. rewrite handle_ids_tvars in Hchk.
    split.
    + rewrite <- Hchk. destruct (check_inputs inputs grads) as [[]|e].
      * split; [done|]. intros _. by eexists _, _.
      * split; [by intros (g & w2 & [=])|done].
    + intros g w2 Hg.
      destruct (check_inputs inputs grads) as [[]|e] eqn:Hc; [|done].
      injection Hg as <- _. split; [|done].
      destruct (proj1 Hchk eq_refl) as (Hnd & _). intros v Hv Hin.
      unfold handle_ids in Hnd. rewrite map_app in Hnd.
      apply NoDup_app in Hnd as (_ & Hdisj & _).
      apply (Hdisj (hid (tvar v))).
      * by apply (list_elem_of_fmap_2 (fun o => hid (tvar o))).
      * by rewrite map_map in Hin.
Qed.

(** The claim as stated fails: no callable is produced for a lone
    [Uniform].  Its variable [x] is collected as an input, its log-density
    does not mention [x], and [theano.function] refuses an unused input;
    [fit] then raises before the minimizer is called. *)
Lemma lone_uniform_does_not_compile :
  ~ (forall (d : Distribution) (w : world),
       status logp_slot w d = None ->
       exists f w1, logp_compiled d w = (Ok f, w1)).
Proof.
  intros H. destruct (H uniform_example w0) as (f & w1 & Hf);
    [reflexivity|]. discriminate Hf.
Qed.

Example uniform_example_raises :
  logp_compiled uniform_example w0
  = (Raise UnusedInputError, logged msg_logp w0)
  /\ fit zero_grad unit minimize_nothing uniform_example
         {["x" := Vector [Fin (1 / 2)]]} {["lo" := Fin 0; "hi" := Fin 1]}
         w0
     = (Raise UnusedInputError, logged msg_logp w0).
Proof. split; reflexivity. Qed.

Example clash_example_not_registered : ~ registered clash_example.
Proof. cbn. set_solver. Qed.

Example normal_example_registered :
  registered normal_example /\ consistent normal_example.
Proof.
  split; [cbn; set_solver|].
  intros o o' Ho Ho' E. cbn in Ho, Ho'. set_unfold. naive_solver.
Qed.

Lemma compiled_signature_witness :
  (exists f w1, logp_compiled normal_example w0 = (Ok f, w1))
  <-> NoDup (handle_ids (get_vars normal_example
                         ++ get_params normal_example))
      /\ inputs_used normal_example /\ inputs_collected normal_example.
Proof.
  apply (compiled_signature zero_grad normal_example w0); reflexivity.
Defined.

(* ------------------------------------------------------------------ *)
(** * Further properties of the code                                   *)
(* ------------------------------------------------------------------ *)

(** ** Registration in the ordered maps *)

Lemma od_get_set_eq {V} (od : OD V) k v : od_get (od_set od k v) k = Some v.
Proof.
  induction od as [|[k' v'] od IH]; simpl.
  - by rewrite String.eqb_refl.
  - destruct (String.eqb_spec k' k) as [->|Hne]; simpl.
    + by rewrite String.eqb_refl.
    + destruct (String.eqb_spec k' k); [done|]. apply IH.
Qed.

Lemma od_get_set_ne {V} (od : OD V) k k0 v :
  k0 <> k -> od_get (od_set od k v) k0 = od_get od k0.
Proof.
  intros Hne. induction od as [|[k' v'] od IH]; simpl.
  - destruct (String.eqb_spec k k0); [congruence|done].
  - destruct (String.eqb_spec k' k) as [->|Hk]; simpl.
    + destruct (String.eqb_spec k k0); [congruence|done].
    + by rewrite IH.
Qed.

Lemma od_keys_set {V} (od : OD V) k v :
  od_keys (od_set od k v)
  = if decide (k ∈ od_keys od) then od_keys od else od_keys od ++ [k].
Proof.
  unfold od_keys.
  induction od as [|[k' v'] od IH]; cbn [od_set map fst].
  - rewrite decide_False; [done|]. apply not_elem_of_nil.
  - destruct (String.eqb_spec k' k) as [->|Hk]; cbn [map fst].
    + rewrite decide_True; [done|]. left.
    + rewrite IH. destruct (decide (k ∈ map fst od)) as [Hin|Hnin].
      * rewrite decide_True; [done|]. by right.
      * rewrite decide_False; [done|].
        intros [E|Hin]%elem_of_cons; [by subst|done].
Qed.

Lemma od_keys_set_NoDup {V} (od : OD V) k v :
  NoDup (od_keys od) -> NoDup (od_keys (od_set od k v)).
Proof.
  intros Hnd. rewrite od_keys_set. case_decide; [done|].
  apply NoDup_app. split; [done|]. split.
  - intros x Hx [->|Hx']%elem_of_cons; [done|]. by apply elem_of_nil in Hx'.
  - apply NoDup_singleton.
Qed.

(** X1.  Registering a leaf with [_add_var] (with [_add_param]) returns
    the leaf's handle and stores the leaf under its name in [self.var]
    (in [self.param]): a lookup of that name now gives the leaf, every
    other name gives what it gave before, the other two maps and the
    identity are untouched, the names in the map stay pairwise distinct,
    and the name keeps its place in the order if it was present and goes
    to the end if it was not. *)
Theorem registration_round_trip (self : Node Distribution) (o : Leaf)
    (el eu : option Q) :
  (exists self',
     _add_var self (PyLeaf o) = Ok (self', tvar o)
     /\ od_get (self_var self') (name o) = Some o
     /\ (forall k, k <> name o ->
           od_get (self_var self') k = od_get (self_var self) k)
     /\ od_keys (self_var self')
        = (if decide (name o ∈ od_keys (self_var self))
           then od_keys (self_var self)
           else od_keys (self_var self) ++ [name o])
     /\ (NoDup (od_keys (self_var self)) ->
         NoDup (od_keys (self_var self')))
     /\ self_param self' = self_param self
     /\ self_dist self' = self_dist self
     /\ did self' = did self)
  /\
  (exists self',
     _add_param self (PyLeaf o) el eu = Ok (self', tvar o)
     /\ od_get (self_param self') (name o) = Some o
     /\ (forall k, k <> name o ->
           od_get (self_param self') k = od_get (self_param self) k)
     /\ od_keys (self_param self')
        = (if decide (name o ∈ od_keys (self_param self))
           then od_keys (self_param self)
           else od_keys (self_param self) ++ [name o])
     /\ (NoDup (od_keys (self_param self)) ->
         NoDup (od_keys (self_param self')))
     /\ self_var self' = self_var self
     /\ self_dist self' = self_dist self
     /\ did self' = did self).
Proof.
  split; eexists; (split; [reflexivity|]); cbn [self_var self_param self_dist did];
    (split; [apply od_get_set_eq|]);
    (split; [intros k Hk; by apply od_get_set_ne|]);
    (split; [apply od_keys_set|]);
    (split; [apply od_keys_set_NoDup|]); done.
Qed.

(** ** What the constructors build *)

Lemma unique_one o : unique [o] = [o].
Proof. done. Qed.

Lemma unique_two m s :
  unique [m; s] = if Nat.eqb (oid m) (oid s) then [m] else [m; s].
Proof. unfold unique. simpl. by destruct (oid m =? oid s). Qed.

Lemma od_values_two (m s : Leaf) :
  od_values (od_set [(name m, m)] (name s) s) = two_registered m s.
Proof.
  unfold two_registered. simpl. by destruct (String.eqb (name m) (name s)).
Qed.

Lemma Normal_built x m s w :
  Normal (PyLeaf x) (Some (PyLeaf m)) (Some (PyLeaf s)) w
  = (Ok (mkDistribution (leaf_node (next_id w) x m s)
                        (IsNormal (tvar x) (tvar m) (tvar s))),
     allocated w).
Proof. reflexivity. Qed.

Lemma Uniform_built x m s w :
  Uniform (PyLeaf x) (Some (PyLeaf m)) (Some (PyLeaf s)) w
  = (Ok (mkDistribution (leaf_node (next_id w) x m s)
                        (IsUniform (tvar x) (tvar m) (tvar s))),
     allocated w).
Proof. reflexivity. Qed.

Lemma leaf_node_collects i x m s cls :
  get_vars (mkDistribution (leaf_node i x m s) cls) = [x]
  /\ get_params (mkDistribution (leaf_node i x m s) cls)
     = unique (two_registered m s).
Proof.
  unfold leaf_node. cbn [get_vars get_params self_var self_param self_dist
                         flat_map].
  rewrite !app_nil_r, od_values_two. done.
Qed.

(** X2.  [Normal(x, mu, sigma)] and [Uniform(x, lower, upper)] given three
    leaf objects are built without error, allocate one identity, keep the
    three handles for their density and collect [x] as the only variable.
    The parameters collected are the two given ones in order -- except
    that when the second has the name of the first it replaces it in
    [self.param], so that the first is no longer collected although the
    density still uses its handle. *)
Theorem leaf_distribution_collects (x m s : Leaf) (w : world) :
  exists dn du,
    Normal (PyLeaf x) (Some (PyLeaf m)) (Some (PyLeaf s)) w
    = (Ok dn, allocated w)
    /\ Uniform (PyLeaf x) (Some (PyLeaf m)) (Some (PyLeaf s)) w
       = (Ok du, allocated w)
    /\ class_of dn = IsNormal (tvar x) (tvar m) (tvar s)
    /\ class_of du = IsUniform (tvar x) (tvar m) (tvar s)
    /\ did (base dn) = next_id w /\ did (base du) = next_id w
    /\ get_vars dn = [x] /\ get_vars du = [x]
    /\ get_dists dn = [] /\ get_dists du = []
    /\ get_params dn = unique (two_registered m s)
    /\ get_params du = unique (two_registered m s)
    /\ (name m = name s -> get_params dn = [s])
    /\ (name m <> name s -> oid m <> oid s -> get_params dn = [m; s]).
Proof.
  eexists _, _. split; [apply Normal_built|]. split; [apply Uniform_built|].
  destruct (leaf_node_collects (next_id w) x m s
              (IsNormal (tvar x) (tvar m) (tvar s))) as [-> ->].
  destruct (leaf_node_collects (next_id w) x m s
              (IsUniform (tvar x) (tvar m) (tvar s))) as [-> ->].
  repeat (split; [done|]). split.
  - intros E. unfold two_registered. by rewrite E, String.eqb_refl.
  - intros Hn Hi. unfold two_registered.
    destruct (String.eqb_spec (name m) (name s)); [done|].
    rewrite unique_two. by destruct (Nat.eqb_spec (oid m) (oid s)).
Qed.

Lemma first_seen_from_seen seen l :
  ids l ⊆ seen -> first_seen_from seen l = [].
Proof.
  revert seen. induction l as [|o l IH]; intros seen Hsub; simpl; [done|].
  rewrite ids_cons in Hsub. rewrite decide_True by set_solver.
  apply IH. set_solver.
Qed.

Lemma first_seen_twice l : first_seen (l ++ l) = first_seen l.
Proof.
  unfold first_seen. rewrite first_seen_from_app.
  rewrite (first_seen_from_seen (∅ ∪ ids l)) by set_solver.
  by rewrite app_nil_r.
Qed.

Lemma first_seen_idem l : first_seen (first_seen l) = first_seen l.
Proof. unfold first_seen. by apply first_seen_from_idem. Qed.

Lemma get_vars_fixed d : first_seen (get_vars d) = get_vars d.
Proof. rewrite get_vars_first_seen. apply first_seen_idem. Qed.

Lemma get_params_fixed d : first_seen (get_params d) = get_params d.
Proof. rewrite get_params_first_seen. apply first_seen_idem. Qed.

Lemma Mix2_built o dist1 dist2 w :
  Mix2 (PyLeaf o) dist1 dist2 w
  = (Ok (mkDistribution (mix_node (next_id w) o dist1 dist2)
                        (IsMix2 (tvar o) dist1 dist2)),
     allocated w).
Proof. reflexivity. Qed.

Lemma mix_node_collects i o dist1 dist2 cls :
  get_vars (mkDistribution (mix_node i o dist1 dist2) cls)
  = unique (get_vars dist1 ++ get_vars dist2)
  /\ get_params (mkDistribution (mix_node i o dist1 dist2) cls)
     = unique (o :: get_params dist1 ++ get_params dist2).
Proof.
  unfold mix_node. cbn [get_vars get_params self_var self_param self_dist
                        flat_map od_values map fst snd app].
  by rewrite !app_nil_r.
Qed.

(** X3.  [Mix2(frac, dist1, dist2)] raises an attribute error when [frac]
    is a number and is built otherwise.  The mixture's children are
    [dist1] and [dist2] in this order; it collects the variables of
    [dist1] followed by those of [dist2] not seen before, and its own
    [frac] followed by the parameters of [dist1] and then of [dist2] not
    seen before.  The variables of [dist1] come first and unchanged; when
    both components are one and the same distribution the mixture
    collects exactly that distribution's variables. *)
Theorem Mix2_collects (dist1 dist2 : Distribution) (w : world) :
  (forall q,
     Mix2 (PyNum q) dist1 dist2 w
     = (Raise (AttributeError "name"), allocated w))
  /\ (forall o, exists d,
        Mix2 (PyLeaf o) dist1 dist2 w = (Ok d, allocated w)
        /\ class_of d = IsMix2 (tvar o) dist1 dist2
        /\ did (base d) = next_id w
        /\ get_dists d = [dist1; dist2]
        /\ get_vars d = unique (get_vars dist1 ++ get_vars dist2)
        /\ get_params d = unique (o :: get_params dist1 ++ get_params dist2)
        /\ (exists rest, get_vars d = get_vars dist1 ++ rest)
        /\ (dist1 = dist2 -> get_vars d = get_vars dist1)).
Proof.
  split; [done|]. intros o. eexists. split; [apply Mix2_built|].
  destruct (mix_node_collects (next_id w) o dist1 dist2
              (IsMix2 (tvar o) dist1 dist2)) as [-> ->].
  repeat (split; [done|]). split.
  - rewrite unique_first_seen. unfold first_seen.
    rewrite first_seen_from_app. fold (first_seen (get_vars dist1)).
    rewrite get_vars_fixed. eauto.
  - intros <-. by rewrite unique_first_seen, first_seen_twice, get_vars_fixed.
Qed.

(** X4.  What the constructors leave registered.  A [Normal] or [Uniform]
    built from three leaves has every handle of its density registered
    when the two parameters have different names; when they share a name
    and the first one's handle is neither the variable's nor the second
    one's, the first parameter's handle is not registered any more.  A
    mixture built by [Mix2] has everything registered exactly when both
    of its components have. *)
Theorem constructors_register (x m s : Leaf) (dist1 dist2 : Distribution)
    (w : world) :
  (forall d w',
     Normal (PyLeaf x) (Some (PyLeaf m)) (Some (PyLeaf s)) w = (Ok d, w')
     \/ Uniform (PyLeaf x) (Some (PyLeaf m)) (Some (PyLeaf s)) w = (Ok d, w') ->
     (name m <> name s -> registered d)
     /\ (name m = name s ->
         hid (tvar m) <> hid (tvar x) -> hid (tvar m) <> hid (tvar s) ->
         ~ registered d))
  /\ (forall o d w',
        Mix2 (PyLeaf o) dist1 dist2 w = (Ok d, w') ->
        (registered d <-> registered dist1 /\ registered dist2)).
Proof.
  split.
  - intros d w' Hd.
    assert (exists cls,
              d = mkDistribution (leaf_node (next_id w) x m s) cls
              /\ (cls = IsNormal (tvar x) (tvar m) (tvar s)
                  \/ cls = IsUniform (tvar x) (tvar m) (tvar s)))
      as (cls & -> & Hcls).
    { destruct Hd as [Hd|Hd].
      - rewrite Normal_built in Hd. injection Hd as <- _. eauto.
      - rewrite Uniform_built in Hd. injection Hd as <- _. eauto. }
    assert (registered (mkDistribution (leaf_node (next_id w) x m s) cls)
            <-> hid (tvar x) ∈ handle_ids (x :: two_registered m s)
                /\ hid (tvar m) ∈ handle_ids (x :: two_registered m s)
                /\ hid (tvar s) ∈ handle_ids (x :: two_registered m s))
      as ->.
    { unfold leaf_node.
      destruct Hcls as [-> | ->]; cbn [registered self_var self_param];
        rewrite od_values_two; done. }
    unfold two_registered, handle_ids. split.
    + intros Hne. destruct (String.eqb_spec (name m) (name s)); [done|].
      cbn [map]. set_solver.
    + intros E Hx Hs. rewrite E, String.eqb_refl. cbn [map]. set_solver.
  - intros o d w' Hd. rewrite Mix2_built in Hd. injection Hd as <- _.
    unfold mix_node. cbn [registered self_var self_param self_dist
                          od_values map snd app handle_ids].
    set_solver.
Qed.

(** ** The two loops of [fit] and the renaming of the solution *)

Lemma data_loop_Forall2 data vs args :
  data_loop data vs = Ok args
  <-> Forall2 (fun v a => data !! name v = Some a) vs args.
Proof.
  revert args. induction vs as [|v vs IH]; intros args; simpl.
  - split; [intros [= <-]; constructor | by intros ->%Forall2_nil_inv_l].
  - destruct (data !! name v) as [a|] eqn:Hv.
    + destruct (data_loop data vs) as [rest|e] eqn:Hrest.
      * split.
        -- intros [= <-]. constructor; [done|]. by apply IH.
        -- intros (a' & rest' & Ha & Hr & ->)%Forall2_cons_inv_l.
           apply IH in Hr. congruence.
      * split; [done|].
        intros (a' & rest' & Ha & Hr & ->)%Forall2_cons_inv_l.
        apply IH in Hr. done.
    + split; [done|].
      intros (a' & rest' & Ha & Hr & ->)%Forall2_cons_inv_l. congruence.
Qed.

Lemma init_loop_Forall2 init ps x0 :
  init_loop init ps = Ok x0
  <-> Forall2 (fun p a => init !! name p = Some a) ps x0.
Proof.
  revert x0. induction ps as [|p ps IH]; intros x0; simpl.
  - split; [intros [= <-]; constructor | by intros ->%Forall2_nil_inv_l].
  - destruct (init !! name p) as [a|] eqn:Hp.
    + destruct (init_loop init ps) as [rest|e] eqn:Hrest.
      * split.
        -- intros [= <-]. constructor; [done|]. by apply IH.
        -- intros (a' & rest' & Ha & Hr & ->)%Forall2_cons_inv_l.
           apply IH in Hr. congruence.
      * split; [done|].
        intros (a' & rest' & Ha & Hr & ->)%Forall2_cons_inv_l.
        apply IH in Hr. done.
    + split; [done|].
      intros (a' & rest' & Ha & Hr & ->)%Forall2_cons_inv_l. congruence.
Qed.

Lemma data_loop_Raise data vs e :
  data_loop data vs = Raise e ->
  exists v, v ∈ vs /\ data !! name v = None /\ e = missing_variable (name v).
Proof.
  induction vs as [|v vs IH]; simpl; [done|].
  destruct (data !! name v) as [a|] eqn:Hv.
  - destruct (data_loop data vs) as [rest|e'] eqn:Hrest; [done|].
    intros [= <-]. destruct IH as (v' & Hin & Hn & ->); [done|].
    exists v'. split; [by right|done].
  - intros [= <-]. exists v. split; [left|done].
Qed.

Lemma init_loop_Raise init ps e :
  init_loop init ps = Raise e ->
  exists p, p ∈ ps /\ init !! name p = None
            /\ e = missing_initial_value (name p).
Proof.
  induction ps as [|p ps IH]; simpl; [done|].
  destruct (init !! name p) as [a|] eqn:Hp.
  - destruct (init_loop init ps) as [rest|e'] eqn:Hrest; [done|].
    intros [= <-]. destruct IH as (p' & Hin & Hn & ->); [done|].
    exists p'. split; [by right|done].
  - intros [= <-]. exists p. split; [left|done].
Qed.

(** X5.  The two loops of [fit] bind by name, in collection order: the
    data vector has one entry per variable, each the dataset column of
    that variable's name, and the initial vector one entry per parameter,
    each the initial value of that parameter's name -- exactly when every
    name is present.  The only error either loop raises is the one naming
    a leaf whose name is absent. *)
Theorem fit_loops_bind_by_name (data : gmap string tval)
    (init : gmap string xreal) (vs ps : list Leaf) :
  (forall data_args,
     data_loop data vs = Ok data_args
     <-> Forall2 (fun v a => data !! name v = Some a) vs data_args)
  /\ (forall x0,
       init_loop init ps = Ok x0
       <-> Forall2 (fun p a => init !! name p = Some a) ps x0)
  /\ (forall e,
       data_loop data vs = Raise e ->
       exists v, v ∈ vs /\ data !! name v = None
                 /\ e = missing_variable (name v))
  /\ (forall e,
       init_loop init ps = Raise e ->
       exists p, p ∈ ps /\ init !! name p = None
                 /\ e = missing_initial_value (name p)).
Proof.
  split; [intros; apply data_loop_Forall2|].
  split; [intros; apply init_loop_Forall2|].
  split; [intros e; apply data_loop_Raise | intros e; apply init_loop_Raise].
Qed.

Lemma name_results_untouched (ps : list Leaf) (xs : list xreal)
    (acc : gmap string xreal) k :
  (forall i p, ps !! i = Some p -> i < length xs -> name p <> k) ->
  fold_left (fun acc pv => <[name (fst pv) := snd pv]> acc) (zip ps xs) acc
    !! k
  = acc !! k.
Proof.
  revert xs acc. induction ps as [|p ps IH]; intros xs acc Hk; [done|].
  destruct xs as [|x xs]; [done|]. cbn [zip zip_with fold_left fst snd].
  rewrite IH.
  - rewrite lookup_insert_ne; [done|]. apply (Hk 0 p); [done|simpl; lia].
  - intros i q Hq Hi. apply (Hk (S i) q); [done|simpl; lia].
Qed.

Lemma name_results_last (ps : list Leaf) (xs : list xreal)
    (acc : gmap string xreal) i p x :
  ps !! i = Some p -> xs !! i = Some x ->
  (forall j q, i < j -> ps !! j = Some q -> j < length xs ->
               name q <> name p) ->
  fold_left (fun acc pv => <[name (fst pv) := snd pv]> acc) (zip ps xs) acc
    !! name p
  = Some x.
Proof.
  revert xs acc i. induction ps as [|p0 ps IH]; intros xs acc i Hp Hx Hlast;
    [by rewrite lookup_nil in Hp|].
  destruct xs as [|x0 xs]; [by rewrite lookup_nil in Hx|].
  cbn [zip zip_with fold_left fst snd]. destruct i as [|i]; simpl in Hp, Hx.
  - injection Hp as ->. injection Hx as ->.
    rewrite name_results_untouched; [by rewrite lookup_insert_eq|].
    intros j q Hq Hj. apply (Hlast (S j) q); [lia|done|simpl; lia].
  - apply (IH xs _ i); [done|done|].
    intros j q Hij Hq Hj. apply (Hlast (S j) q); [lia|done|simpl; lia].
Qed.

(** X6.  The renaming of the solution at the end of [fit]: a parameter's
    name maps to the value at the parameter's position, provided no later
    parameter (with a value) has the same name -- among parameters that
    share a name the last one wins; a name of no parameter with a value
    is absent.  So with pairwise distinct names and a solution as long as
    the parameter list, every parameter's name maps to its own value. *)
Theorem solution_named_by_parameter (ps : list Leaf) (xs : list xreal) :
  (forall i p x,
     ps !! i = Some p -> xs !! i = Some x ->
     (forall j q, i < j -> ps !! j = Some q -> j < length xs ->
                  name q <> name p) ->
     name_results ps xs !! name p = Some x)
  /\ (forall k,
       (forall i p, ps !! i = Some p -> i < length xs -> name p <> k) ->
       name_results ps xs !! k = None)
  /\ (NoDup (map name ps) -> length xs = length ps ->
      forall i p, ps !! i = Some p ->
                  name_results ps xs !! name p = xs !! i).
Proof.
  split; [|split].
  - intros i p x Hp Hx Hlast. by eapply name_results_last.
  - intros k Hk. unfold name_results. by rewrite name_results_untouched.
  - intros Hnd Hlen i p Hp.
    destruct (xs !! i) as [x|] eqn:Hx.
    + eapply name_results_last; [done|done|].
      intros j q Hij Hq _ E.
      assert (i = j); [|lia].
      eapply (NoDup_lookup (map name ps)); [done| |].
      * by rewrite list_lookup_fmap, Hp.
      * rewrite list_lookup_fmap, Hq. simpl. by rewrite E.
    + apply lookup_ge_None in Hx. apply lookup_lt_Some in Hp. lia.
Qed.

(** ** Soundness of the cache *)

Section Cache_soundness.

Variable T_grad : texpr -> list handle -> result (list texpr).
Variable Diagnostics : Type.
Variable minimize :
  (list xreal -> option tval) ->
  (list xreal -> option (list tval)) ->
  list xreal -> result (OptimizeResult (list xreal) Diagnostics).

(** In a sound world both methods return what compiling gives. *)
Lemma sound_returns d w :
  sound T_grad w d ->
  fst (logp_compiled d w) = objective d
  /\ fst (grad_compiled T_grad d w) = gradient T_grad d.
Proof.
  intros [HL HG]. rewrite logp_compiled_cases, grad_compiled_cases. split.
  - destruct (status logp_slot w d) as [f|] eqn:Hs.
    + cbn [fst]. symmetry. by apply HL.
    + by destruct (objective d).
  - destruct (status grad_slot w d) as [g|] eqn:Hs.
    + cbn [fst]. symmetry. by apply HG.
    + by destruct (gradient T_grad d).
Qed.

Lemma sound_logged msg w d : sound T_grad w d -> sound T_grad (logged msg w) d.
Proof. done. Qed.

Lemma sound_logp_compiled d d' w :
  (did (base d') = did (base d) -> d' = d) ->
  sound T_grad w d -> sound T_grad (snd (logp_compiled d' w)) d.
Proof.
  intros Hid [HL HG]. rewrite logp_compiled_cases.
  destruct (status logp_slot w d') as [f|] eqn:Hs; [done|].
  destruct (objective d') as [f|e] eqn:Ho; cbn [snd]; [|done]. split.
  - destruct (decide (did (base d') = did (base d))) as [E|Hne].
    + rewrite <- (Hid E). rewrite status_store_same by done.
      by intros f' [= <-].
    + rewrite status_store_other_key, status_logged by done. apply HL.
  - rewrite status_store_other_slot, status_logged by done. apply HG.
Qed.

Lemma sound_grad_compiled d d' w :
  (did (base d') = did (base d) -> d' = d) ->
  sound T_grad w d -> sound T_grad (snd (grad_compiled T_grad d' w)) d.
Proof.
  intros Hid [HL HG]. rewrite grad_compiled_cases.
  destruct (status grad_slot w d') as [g|] eqn:Hs; [done|].
  destruct (gradient T_grad d') as [g|e] eqn:Ho; cbn [snd]; [|done]. split.
  - rewrite status_store_other_slot, status_logged by done. apply HL.
  - destruct (decide (did (base d') = did (base d))) as [E|Hne].
    + rewrite <- (Hid E). rewrite status_store_same by done.
      by intros g' [= <-].
    + rewrite status_store_other_key, status_logged by done. apply HG.
Qed.

Lemma sound_run_call d d' c w :
  (did (base d') = did (base d) -> d' = d) ->
  sound T_grad w d ->
  sound T_grad (run_call T_grad Diagnostics minimize d' c w) d.
Proof.
  intros Hid Hs. destruct c as [| |data init]; cbn [run_call].
  - by apply sound_logp_compiled.
  - by apply sound_grad_compiled.
  - destruct (fit_world T_grad Diagnostics minimize d' data init w)
      as [-> | [-> | [[-> _] | [-> _]]]]; [done| | |].
    + by apply sound_logp_compiled.
    + by apply sound_grad_compiled, sound_logp_compiled.
    + by apply sound_logged, sound_grad_compiled, sound_logp_compiled.
Qed.

Lemma sound_run_mixed d cs w :
  identifies d cs ->
  sound T_grad w d ->
  sound T_grad (run_mixed T_grad Diagnostics minimize cs w) d.
Proof.
  intros Hcs. revert w. induction Hcs as [|[d' c] cs Hid _ IH]; intros w Hs;
    [done|].
  cbn [run_mixed fold_left fst snd]. apply IH. by apply sound_run_call.
Qed.

End Cache_soundness.

(** X7.  The cache stays sound.  A world that keeps nothing for [d] is
    sound for [d]; soundness for [d] is kept by every sequence of
    [logp_compiled], [grad_compiled] and [fit] calls on any objects, as
    long as an object with the identity of [d] is [d]; and in a sound
    world [logp_compiled] and [grad_compiled] on [d] return exactly what
    compiling [d] gives -- the callable or the error -- whether they
    compile or reuse. *)
Theorem cache_stays_sound
    (T_grad : texpr -> list handle -> result (list texpr))
    (Diagnostics : Type)
    (minimize : (list xreal -> option tval) ->
                (list xreal -> option (list tval)) ->
                list xreal -> result (OptimizeResult (list xreal) Diagnostics))
    (d : Distribution) :
  (forall w, status logp_slot w d = None -> status grad_slot w d = None ->
             sound T_grad w d)
  /\ (forall cs w,
       identifies d cs -> sound T_grad w d ->
       sound T_grad (run_mixed T_grad Diagnostics minimize cs w) d)
  /\ (forall w,
       sound T_grad w d ->
       fst (logp_compiled d w) = objective d
       /\ fst (grad_compiled T_grad d w) = gradient T_grad d).
Proof.
  split; [|split].
  - intros w HL HG. split; intros f Hf; congruence.
  - intros cs w. apply sound_run_mixed.
  - intros w. apply sound_returns.
Qed.

(** ** [fit], end to end *)

Section Fit_end_to_end.

Variable T_grad : texpr -> list handle -> result (list texpr).
Variable Diagnostics : Type.
Variable minimize :
  (list xreal -> option tval) ->
  (list xreal -> option (list tval)) ->
  list xreal -> result (OptimizeResult (list xreal) Diagnostics).

(** In a sound world, past validation, [fit] stops at the first
    compilation that raises, and is otherwise one run of the minimizer on
    the two closures. *)
Lemma fit_sound d data init w data_args x0 :
  sound T_grad w d ->
  data_loop data (get_vars d) = Ok data_args ->
  init_loop init (get_params d) = Ok x0 ->
  let w1 := snd (logp_compiled d w) in
  let w2 := snd (grad_compiled T_grad d w1) in
  fit T_grad Diagnostics minimize d data init w
  = match objective d with
    | Raise e => (Raise e, w1)
    | Ok f =>
        match gradient T_grad d with
        | Raise e => (Raise e, w2)
        | Ok g =>
            (match minimize (fit_func f data_args) (fit_func g data_args) x0
             with
             | Ok r =>
                 Ok (mkOptimizeResult (name_results (get_params d) (res_x r))
                                      (res_info r))
             | Raise e => Raise e
             end, logged msg_minimize w2)
        end
    end.
Proof.
  intros Hs Hdata Hinit w1 w2.
  pose proof (sound_returns T_grad d w Hs) as [HL _].
  pose proof (sound_logp_compiled T_grad d d w (fun _ => eq_refl) Hs) as Hs1.
  pose proof (sound_returns T_grad d _ Hs1) as [_ HG].
  fold w1 in HG. unfold w2, w1 in *. clear w1 w2.
  unfold fit, bind, lift. rewrite Hdata, Hinit.
  destruct (logp_compiled d w) as [r1 w1]. cbn [fst snd] in *. subst r1.
  destruct (objective d) as [f|e]; [|done].
  destruct (grad_compiled T_grad d w1) as [r2 w2]. cbn [fst snd] in *.
  subst r2. destruct (gradient T_grad d) as [g|e]; [|done].
  cbn [logging_info]. unfold fit_func.
  by destruct (minimize _ _ x0).
Qed.

End Fit_end_to_end.

(** X8.  [fit], end to end.  In a world whose cache is sound for [d] and
    with every collected name present: when the objective does not
    compile, [fit] raises that error, and otherwise when the gradient does
    not compile, that one, in both cases without calling the minimizer;
    otherwise it runs the minimizer once, on the initial vector and on two
    closures over the fixed data, and returns the minimizer's result with
    the solution renamed by parameter, or raises what the minimizer
    raised.  It leaves the cache sound.  The objective closure, given
    candidate values that the compiled function accepts together with the
    data, returns the negative sum of [logp()] evaluated with every
    variable standing for the data column of its name and every parameter
    for the candidate value at its position. *)
Theorem fit_minimizes_negative_loglik
    (T_grad : texpr -> list handle -> result (list texpr))
    (Diagnostics : Type)
    (minimize : (list xreal -> option tval) ->
                (list xreal -> option (list tval)) ->
                list xreal -> result (OptimizeResult (list xreal) Diagnostics))
    (d : Distribution) (data : gmap string tval) (init : gmap string xreal)
    (w : world) (n : nat) (data_args : list tval) (x0 : list xreal) :
  sound T_grad w d ->
  data_loop data (get_vars d) = Ok data_args ->
  init_loop init (get_params d) = Ok x0 ->
  (exists w',
     fit T_grad Diagnostics minimize d data init w
     = (match objective d, gradient T_grad d with
        | Raise e, _ => Raise e
        | Ok _, Raise e => Raise e
        | Ok f, Ok g =>
            match minimize (fit_func f data_args) (fit_func g data_args) x0
            with
            | Ok r => Ok (mkOptimizeResult
                            (name_results (get_params d) (res_x r))
                            (res_info r))
            | Raise e => Raise e
            end
        end, w')
     /\ sound T_grad w' d
     /\ count_log msg_minimize w'
        = count_log msg_minimize w
          + match objective d, gradient T_grad d with
            | Ok _, Ok _ => 1
            | _, _ => 0
            end)
  /\ Forall2 (fun p a => init !! name p = Some a) (get_params d) x0
  /\ (forall f pars,
       objective d = Ok f ->
       accepts (map tvar (get_vars d) ++ map tvar (get_params d))
               (data_args ++ map Scalar pars) = true ->
       Forall (has_rows n) data_args ->
       (forall i v, get_vars d !! i = Some v ->
          fit_env d data_args pars (hid (tvar v)) = data !! name v)
       /\ (forall j p, get_params d !! j = Some p ->
            fit_env d data_args pars (hid (tvar p)) = Scalar <$> pars !! j)
       /\ exists L,
            eval (fit_env d data_args pars) (logp d) = Some L
            /\ fit_func f data_args pars = Some (tmap xneg (tsum L))).
Proof.
  intros Hs Hdata Hinit.
  pose proof (proj1 (data_loop_Forall2 _ _ _) Hdata) as Hbound.
  pose proof (Forall2_length _ _ _ Hbound) as Hlv. symmetry in Hlv.
  assert (forall w1 w2 : world, log w2 = log w1 \/
            (exists m, m <> msg_minimize /\ log w2 = log w1 ++ [m]) ->
            count_log msg_minimize w2 = count_log msg_minimize w1) as Hcnt.
  { intros w1 w2 [E|(m & Hm & E)]; unfold count_log; rewrite E; [done|].
    rewrite count_occ_app. simpl.
    destruct (string_dec m msg_minimize); [done|lia]. }
  assert (count_log msg_minimize (snd (logp_compiled d w))
          = count_log msg_minimize w) as Hc1.
  { apply Hcnt. rewrite logp_compiled_cases.
    destruct (status logp_slot w d); [by left|].
    destruct (objective d); right; exists msg_logp; by split. }
  assert (count_log msg_minimize
            (snd (grad_compiled T_grad d (snd (logp_compiled d w))))
          = count_log msg_minimize w) as Hc2.
  { rewrite <- Hc1. apply Hcnt. rewrite grad_compiled_cases.
    destruct (status grad_slot _ d); [by left|].
    destruct (gradient T_grad d); right; exists msg_grad; by split. }
  pose proof (sound_logp_compiled T_grad d d w (fun _ => eq_refl) Hs) as Hs1.
  pose proof (sound_grad_compiled T_grad d d _ (fun _ => eq_refl) Hs1) as Hs2.
  split; [|split].
  - pose proof (fit_sound T_grad Diagnostics minimize d data init w
                  data_args x0 Hs Hdata Hinit) as Hfit.
    cbn zeta in Hfit. rewrite Hfit.
    destruct (objective d) as [f|e].
    + destruct (gradient T_grad d) as [g|e].
      * eexists. split; [done|]. split; [by apply sound_logged|].
        rewrite count_log_logged, Hc2.
        by destruct (string_dec msg_minimize msg_minimize).
      * eexists. split; [done|]. split; [done|]. rewrite Hc2. lia.
    + eexists. split; [done|]. split; [done|]. rewrite Hc1. lia.
  - by apply init_loop_Forall2.
  - intros f pars Hf Hacc Hrows.
    pose proof (proj1 (objective_Ok d f) Hf) as [(Hnd & _ & _) _].
    pose proof (accepts_length _ _ Hacc) as Hlen.
    assert (length (map Scalar pars) = length (get_params d)) as Hlp.
    { rewrite !length_app, !(length_map tvar) in Hlen. lia. }
    split; [|split].
    + intros i v Hi. unfold fit_env.
      rewrite (bind_variable _ _ _ _ i v) by done.
      destruct (Forall2_lookup_l _ _ _ _ _ Hbound Hi) as (a & Ha & Hd).
      by rewrite Ha, Hd.
    + intros j p Hj. unfold fit_env.
      rewrite (bind_parameter _ _ _ _ j p) by done.
      by rewrite list_lookup_fmap.
    + apply (objective_value d f n); [done|done|].
      apply Forall_app. split; [done|].
      apply Forall_fmap, Forall_true. done.
Qed.

Lemma fit_minimizes_negative_loglik_witness :
  exists f L,
    objective normal_example = Ok f
    /\ eval (fit_env normal_example [Vector [Fin 0]] [Fin 0; Fin 1])
            (logp normal_example) = Some L
    /\ fit_func f [Vector [Fin 0]] [Fin 0; Fin 1]
       = Some (tmap xneg (tsum L)).
Proof.
  destruct (fit_minimizes_negative_loglik zero_grad unit minimize_nothing
              normal_example {["x" := Vector [Fin 0]]}
              {["mu" := Fin 0; "sigma" := Fin 1]} w0 1
              [Vector [Fin 0]] [Fin 0; Fin 1]) as (_ & _ & H).
  - split; intros f Hf; discriminate Hf.
  - reflexivity.
  - reflexivity.
  - eexists.
    destruct (H _ [Fin 0; Fin 1] eq_refl eq_refl) as (_ & _ & L & HL & Hf).
    + repeat constructor.
    + exists L. split; [reflexivity|]. split; [exact HL|exact Hf].
Defined.

(** ** A [Uniform] on its own *)

Lemma uniform_objective x lo hi i :
  hid (tvar x) <> hid (tvar lo) ->
  hid (tvar x) <> hid (tvar hi) ->
  objective (mkDistribution (leaf_node i x lo hi)
                            (IsUniform (tvar x) (tvar lo) (tvar hi)))
  = Raise UnusedInputError.
Proof.
  intros Hlo Hhi. unfold objective, function.
  rewrite check_inputs_unused; [done|]. right. intros Hsub.
  rewrite cost_inputs in Hsub. cbn [_get_vars_pars fst snd] in Hsub.
  destruct (leaf_node_collects i x lo hi
              (IsUniform (tvar x) (tvar lo) (tvar hi))) as [Hv _].
  rewrite Hv in Hsub. cbn in Hsub.
  specialize (Hsub (hid (tvar x))). set_unfold in Hsub. naive_solver.
Qed.

(** X18.  A [Uniform] built from three leaves, with a variable whose
    handle is not one of the two parameters' handles, cannot be compiled
    or fitted on its own: its variable is collected as an input of the
    compiled function while its log-density does not mention it.  The
    compilation of the objective raises [UnusedInputError]; so does every
    call of [logp_compiled] that finds nothing kept, after logging; and
    [fit] always raises without calling the minimizer -- that error, when
    the dataset and the initial values are complete. *)
Theorem lone_Uniform_does_not_fit
    (T_grad : texpr -> list handle -> result (list texpr))
    (Diagnostics : Type)
    (minimize : (list xreal -> option tval) ->
                (list xreal -> option (list tval)) ->
                list xreal -> result (OptimizeResult (list xreal) Diagnostics))
    (x lo hi : Leaf) (w w' : world) (d : Distribution) :
  Uniform (PyLeaf x) (Some (PyLeaf lo)) (Some (PyLeaf hi)) w = (Ok d, w') ->
  hid (tvar x) <> hid (tvar lo) ->
  hid (tvar x) <> hid (tvar hi) ->
  objective d = Raise UnusedInputError
  /\ (forall w1, status logp_slot w1 d = None ->
        logp_compiled d w1 = (Raise UnusedInputError, logged msg_logp w1))
  /\ (forall w1 data init, status logp_slot w1 d = None ->
        exists e,
          fst (fit T_grad Diagnostics minimize d data init w1) = Raise e
          /\ count_log msg_minimize
               (snd (fit T_grad Diagnostics minimize d data init w1))
             = count_log msg_minimize w1
          /\ (forall data_args x0,
                data_loop data (get_vars d) = Ok data_args ->
                init_loop init (get_params d) = Ok x0 ->
                e = UnusedInputError)).
Proof.
  intros Hd Hlo Hhi. rewrite Uniform_built in Hd. injection Hd as <- _.
  pose proof (uniform_objective x lo hi (next_id w) Hlo Hhi) as Hobj.
  split; [done|]. split.
  - intros w1 Hs. by rewrite logp_compiled_cases, Hs, Hobj.
  - intros w1 data init Hs. unfold fit, bind, lift.
    destruct (data_loop data _) as [data_args|e]; cbn [fst snd];
      [|by exists e].
    destruct (init_loop init _) as [x0|e]; cbn [fst snd]; [|by exists e].
    rewrite logp_compiled_cases, Hs, Hobj. cbn [fst snd].
    exists UnusedInputError. split; [done|]. split; [|done].
    rewrite count_log_logged.
    destruct (string_dec msg_logp msg_minimize) as [E|_]; [discriminate E|].
    lia.
Qed.

Lemma lone_Uniform_does_not_fit_witness :
  objective uniform_example = Raise UnusedInputError.
Proof.
  apply (lone_Uniform_does_not_fit zero_grad unit minimize_nothing
           (OfVariable (mkVariable 0 "x" "x" (mkHandle 1 "x" 1)))
           (OfParameter (mkParameter 2 "lo" "lo" None None
                                     (mkHandle 3 "lo" 0)))
           (OfParameter (mkParameter 4 "hi" "hi" None None
                                     (mkHandle 5 "hi" 0)))
           (mkWorld 6 ∅ []) (mkWorld 7 ∅ []) uniform_example).
  - reflexivity.
  - discriminate.
  - discriminate.
Defined.

(** ** Edge cases of the log-densities *)

(** X9.  [bound] with no condition at all leaves the log-density as it
    is. *)
Theorem bound_without_conditions (rho : env) (logp : texpr) :
  eval rho (bound logp []) = eval rho logp.
Proof.
  unfold bound, alltrue. cbn [fold_left eval].
  destruct (eval rho logp) as [L|]; [|done].
  rewrite tswitch_mask. cbn [tmap]. rewrite truthy_1.
  destruct L as [a|l]; cbn [tmap2 mask_entry]; [done|]. by rewrite map_id.
Qed.

(** X17.  The support of [Normal.logp].  The log-density is a density
    expression bounded by the single condition [sigma > 0].  With [sigma]
    bound to a scalar: where the density expression has no value,
    [Normal.logp] has none; for [sigma > 0], [+inf] included, it is the
    value of the density expression, entry by entry; for [sigma <= 0],
    [-inf] or [nan] it has the same shape and every entry is [-inf],
    whatever the density expression evaluates to. *)
Theorem Normal_logp_support (self : Node Distribution)
    (x mu sigma : handle) :
  exists density,
    logp (mkDistribution self (IsNormal x mu sigma))
    = bound density [T_gt (T_var sigma) (T_const (Fin 0))]
    /\ (forall h, h ∈ inputs_of density <-> h = x \/ h = mu \/ h = sigma)
    /\ forall (rho : env) (sg : xreal),
         rho (hid sigma) = Some (Scalar sg) ->
         (eval rho density = None ->
          eval rho (logp (mkDistribution self (IsNormal x mu sigma))) = None)
         /\ forall L,
              eval rho density = Some L ->
              ((sg = PInf \/ exists s, sg = Fin s /\ (0 < s)%R) ->
               eval rho (logp (mkDistribution self (IsNormal x mu sigma)))
               = Some L)
              /\ ((sg = NaN \/ sg = NInf
                   \/ exists s, sg = Fin s /\ (s <= 0)%R) ->
                  eval rho (logp (mkDistribution self (IsNormal x mu sigma)))
                  = Some (tmap (fun _ => NInf) L)).
Proof.
  eexists. split; [reflexivity|]. split.
  { intros h. cbn [inputs_of]. set_unfold. naive_solver. }
  intros rho sg Hsg. cbn [logp]. split; [apply eval_bound_none|].
  intros L HL.
  assert (mapM (eval rho) [T_gt (T_var sigma) (T_const (Fin 0))]
          = Some (map (fun b => Scalar (of_bool b)) [xltb (Fin 0) sg])) as Hc.
  { cbn. rewrite Hsg. done. }
  rewrite (eval_bound_scalars _ _ _ L _ HL Hc). cbn [forallb].
  rewrite andb_true_r. split.
  - intros Hpos.
    assert (xltb (Fin 0) sg = true) as ->.
    { destruct Hpos as [->|(s & -> & Hs)]; [done|]. by apply xltb_fin_true. }
    f_equal. destruct L as [a|l]; cbn [tmap mask_entry]; [done|].
    by rewrite map_id.
  - intros Hneg.
    assert (xltb (Fin 0) sg = false) as ->.
    { destruct Hneg as [->|[->|(s & -> & Hs)]]; [done|done|].
      by apply xltb_fin_false. }
    done.
Qed.

(** ** What a log-density depends on *)

Lemma eval_ext (rho rho' : env) e :
  (forall h, h ∈ inputs_of e -> rho (hid h) = rho' (hid h)) ->
  eval rho e = eval rho' e.
Proof.
  induction e; cbn [inputs_of eval]; intros Hagree;
    repeat match goal with
    | IH : (forall h, h ∈ inputs_of ?a -> _) -> _ |- _ =>
        rewrite IH by (intros h0 Hh0; apply Hagree; set_solver); clear IH
    end; try done.
  apply Hagree. set_solver.
Qed.

Lemma inputs_of_logp d h :
  h ∈ inputs_of (logp d) <-> h ∈ density_handles d.
Proof.
  induction d as [self cls _ IH] using Distribution_tree_ind.
  destruct cls as [x lower upper|x mu sigma|frac dist1 dist2].
  - cbn. set_solver.
  - cbn. set_solver.
  - destruct IH as [IH1 IH2]. cbn [density_handles].
    rewrite elem_of_cons, elem_of_app, <- IH1, <- IH2. cbn.
    set_unfold. naive_solver.
Qed.

(** X13.  What a log-density depends on.  The symbolic inputs of [logp()]
    are exactly the handles the density is written over: [upper] and
    [lower] for a Uniform (not [x]), [x], [mu] and [sigma] for a Normal,
    [frac] and the inputs of both components for a mixture.  Two
    environments that agree on these give the same value: data and
    parameters of leaves the density does not mention have no influence
    on it. *)
Theorem logp_depends_on_its_handles (d : Distribution) (rho rho' : env) :
  (forall h, h ∈ density_handles d -> rho (hid h) = rho' (hid h)) ->
  eval rho (logp d) = eval rho' (logp d)
  /\ (forall h, h ∈ inputs_of (logp d) <-> h ∈ density_handles d).
Proof.
  intros Hagree. split.
  - apply eval_ext. intros h Hh. by apply Hagree, inputs_of_logp.
  - intros h. apply inputs_of_logp.
Qed.

Lemma logp_depends_on_its_handles_witness :
  eval (env_set outside_env (mkHandle 1 "x" 1) (Vector [Fin (1 / 2)]))
       (logp uniform_example)
  = eval outside_env (logp uniform_example).
Proof.
  apply (logp_depends_on_its_handles uniform_example).
  intros h Hh. cbn in Hh. unfold env_set.
  apply elem_of_cons in Hh as [->|Hh]; [reflexivity|].
  apply elem_of_cons in Hh as [->|Hh]; [reflexivity|].
  by apply elem_of_nil in Hh.
Defined.

(** ** Parameters that share a name *)

Example shared_sigma_params_collected :
  get_params <$> value_of (shared_sigma_model w0) = Some shared_sigma_params.
Proof. reflexivity. Qed.

(** X15.  Two collected parameters with one name.  [fit] looks initial
    values up by name and reports the solution by name, so two distinct
    parameters that share a name start from the same initial value, and
    the reported mapping holds under that name the fitted value of the
    later one only. *)
Theorem same_named_parameters (init : gmap string xreal) (ps : list Leaf)
    (x0 xs : list xreal) (i j : nat) (p q : Leaf) :
  init_loop init ps = Ok x0 ->
  length xs = length ps ->
  ps !! i = Some p ->
  ps !! j = Some q ->
  i < j ->
  name p = name q ->
  (forall k r, j < k -> ps !! k = Some r -> name r <> name q) ->
  x0 !! i = x0 !! j
  /\ name_results ps xs !! name p = xs !! j.
Proof.
  intros Hinit Hlen Hp Hq Hij Hname Hlast.
  apply init_loop_Forall2 in Hinit. split.
  - destruct (Forall2_lookup_l _ _ _ _ _ Hinit Hp) as (a & Ha & Hia).
    destruct (Forall2_lookup_l _ _ _ _ _ Hinit Hq) as (b & Hb & Hib).
    rewrite Ha, Hb. f_equal. rewrite Hname in Hia. congruence.
  - destruct (xs !! j) as [x|] eqn:Hx.
    + rewrite Hname. eapply name_results_last; [done|done|].
      intros k r Hjk Hr _. by eapply Hlast.
    + apply lookup_ge_None in Hx. apply lookup_lt_Some in Hq. lia.
Qed.

Lemma same_named_parameters_witness :
  [Fin (1 / 2); Fin 0; Fin 1; Fin 0] !! 1
  = [Fin (1 / 2); Fin 0; Fin 1; Fin 0] !! 3
  /\ name_results shared_sigma_params [Fin 1; Fin 2; Fin 3; Fin 4] !! "mu"
     = [Fin 1; Fin 2; Fin 3; Fin 4] !! 3.
Proof.
  apply (same_named_parameters
           {["frac" := Fin (1 / 2); "mu" := Fin 0; "sigma" := Fin 1]}
           shared_sigma_params [Fin (1 / 2); Fin 0; Fin 1; Fin 0]
           [Fin 1; Fin 2; Fin 3; Fin 4] 1 3
           (OfParameter (mkParameter 2 "mu" "mu" None None
                                     (mkHandle 3 "mu" 0)))
           (OfParameter (mkParameter 4 "mu" "mu" None None
                                     (mkHandle 5 "mu" 0)))).
  - reflexivity.
  - reflexivity.
  - reflexivity.
  - reflexivity.
  - lia.
  - reflexivity.
  - intros k r Hk Hr. apply lookup_lt_Some in Hr. simpl in Hr. lia.
Defined.
